(** * ScriptManager: the module registry and the event dispatcher

    A shallow embedding of [src/ScriptManager.h].  The manager owns two
    hash maps, [loaded_modules_] (module name to script record) and
    [module_function_cache_] (event name to the records known to expose a
    function of that name), and drives an embedded Python interpreter.

    The interpreter, the file system and the logger are outside the class.
    Each host operation therefore takes the interpreter's answers as an
    argument (what [import] returned, whether [hasattr] holds, what a called
    function did), and every theorem quantifies over those answers.

    Left out: the interpreter lock, which every entry point holds from its
    first line to its return; the arguments of [dispatch_event], which are
    forwarded to the script untouched; and C++ exceptions other than
    [py::error_already_set], which no catch block of the class handles. *)

From stdpp Require Import base option list gmap fin_maps strings.

(** ** The file system (std::filesystem) *)

Definition path := string.

Record directory_entry := {
  entry_path : path;
  is_regular_file : bool;
}.

(** The queries of std::filesystem the manager issues.  Their answers depend
    on the platform and on the working directory, so they are an interface. *)
Class Filesystem := {
  current_path : path;
  absolute : path → path;
  relative : path → path → path;
  parent_path : path → path;
  stem : path → string;
  extension : path → string;
  join : path → path → path;
  exists_ : path → bool;
  is_directory : path → bool;
  recursive_directory_iterator : path → list directory_entry;
}.

(** ** The embedded interpreter (pybind11) *)

(** A [py::module_] is a reference to a module object of the interpreter. *)
Definition py_module := nat.

(** [py::error_already_set]: the message of [what()], and the traceback that
    [PyErr_Fetch] hands out in the catch block, when there is one. *)
Record error_already_set := {
  what : string;
  traceback : option string;
}.

(** [py::module::import(name)], after [dir] was appended to [sys.path]:
    the module object together with its attributes as [py::hasattr] reports
    them right after the import, or the exception. *)
Inductive ImportResult :=
| Imported (module : py_module) (hasattr : string → bool)
| ImportError (e : error_already_set).

(** [module.reload()]: on success, the attributes of the module as
    [py::hasattr] reports them right after the reload. *)
Inductive ReloadResult :=
| Reloaded (hasattr : string → bool)
| ReloadError (e : error_already_set).

(** ** Script records *)

(** Modelled from the spec: [Models/ScriptModule.h] is not among the sources.
    A Module Record has a logical name, an absolute path, a relative path and
    the handle of the imported module; the constructor call and the accessors
    [name()] and [script_module()] are those the manager uses. *)
Record ScriptModule := {
  name : string;
  script_module : py_module;
  absolute_path : path;
  relative_path : path;
}.

(** ** The manager *)

Record ScriptManager := {
  module_path_ : string;
  loaded_modules_ : gmap string ScriptModule;
  module_function_cache_ : gmap string (list ScriptModule);
}.

(** The singleton of [instance()] as its constructor leaves it. *)
Definition instance : ScriptManager :=
  {| module_path_ := ""; loaded_modules_ := ∅; module_function_cache_ := ∅ |}.

(** ** Host operations: state passing, with the log as output

    Modelled from the spec: [Logger.h] is not among the sources.  The logger
    is a sink taking a free-form textual message; a message is modelled as
    the concatenation of the arguments of [log_message].  The sink is
    write-only, so the log is an output and not a part of the state. *)
Definition Host (A : Type) : Type :=
  ScriptManager → A * ScriptManager * list string.

Definition ret {A} (a : A) : Host A := λ s, (a, s, []).

Definition bind {A B} (m : Host A) (k : A → Host B) : Host B :=
  λ s, let '(a, s1, l1) := m s in
       let '(b, s2, l2) := k a s1 in
       (b, s2, l1 ++ l2).

Definition get : Host ScriptManager := λ s, (s, s, []).
Definition log_message (msg : string) : Host unit := λ s, (tt, s, [msg]).

#[global] Instance Host_ret : MRet Host := @ret.
#[global] Instance Host_bind : MBind Host := λ A B k m, bind m k.

(** What a run of an operation left behind. *)
Definition result {A} (r : A * ScriptManager * list string) : A := r.1.1.
Definition state {A} (r : A * ScriptManager * list string) : ScriptManager := r.1.2.
Definition logged {A} (r : A * ScriptManager * list string) : list string := r.2.

Definition nl : string := String (Ascii.ascii_of_nat 10) "".

(** The catch blocks: the message, then the traceback when one is fetched. *)
Definition log_exception (where_ : string) (e : error_already_set) : Host unit :=
  log_message (where_ +:+ nl +:+ what e);;
  match traceback e with
  | Some tb => log_message ("Trace:" +:+ nl +:+ tb)
  | None => mret tt
  end.

Definition set_loaded_modules_ (f : gmap string ScriptModule → gmap string ScriptModule)
    (s : ScriptManager) : ScriptManager :=
  {| module_path_ := module_path_ s;
     loaded_modules_ := f (loaded_modules_ s);
     module_function_cache_ := module_function_cache_ s |}.

Definition set_module_function_cache_
    (f : gmap string (list ScriptModule) → gmap string (list ScriptModule))
    (s : ScriptManager) : ScriptManager :=
  {| module_path_ := module_path_ s;
     loaded_modules_ := loaded_modules_ s;
     module_function_cache_ := f (module_function_cache_ s) |}.

Definition modify (f : ScriptManager → ScriptManager) : Host unit :=
  λ s, (tt, f s, []).

(** The loop shared by [load_script] and [reload_script]: for every function
    name of the cache, [push_back] the record when the module has an
    attribute of that name. *)
Definition add_to_cached_functions (script : ScriptModule) (hasattr : string → bool)
    (cache : gmap string (list ScriptModule)) : gmap string (list ScriptModule) :=
  map_imap (λ function_name modules,
    Some (if hasattr function_name then modules ++ [script] else modules)) cache.

(** [std::find_if] on the name followed by [erase]: the first record with
    that name goes, the others stay in place. *)
Fixpoint erase_found (module_name : string) (modules : list ScriptModule)
    : list ScriptModule :=
  match modules with
  | [] => []
  | module :: rest =>
      if decide (name module = module_name) then rest
      else module :: erase_found module_name rest
  end.

(** ** Calling into a script

    What the interpreter does when the manager calls [module.attr(name)(args...)]:
    the function body runs, may call back into the manager (changing its state
    and logging), and then returns or raises.  The returned object is dropped
    by the manager and the arguments are forwarded untouched, so neither is
    modelled. *)
Inductive Outcome :=
| Returned
| Raised (e : error_already_set).

Definition Handler := Host Outcome.

Definition returns (outcome : Outcome) : bool :=
  match outcome with
  | Returned => true
  | Raised _ => false
  end.

Section Manager.
Context {FS : Filesystem}.

Definition set_module_path (p : string) : Host unit :=
  modify (λ s, {| module_path_ := p;
                  loaded_modules_ := loaded_modules_ s;
                  module_function_cache_ := module_function_cache_ s |}).

Definition load_script (module_path : path)
    (py_import : path → string → ImportResult) : Host unit :=
  let absolute_path := absolute module_path in
  let relative_path := relative absolute_path current_path in
  let absolute_dir := absolute (parent_path module_path) in
  let module_name := stem relative_path in
  match py_import absolute_dir module_name with
  | Imported module hasattr =>
      let script := {| name := module_name; script_module := module;
                       absolute_path := absolute_path;
                       relative_path := relative_path |} in
      modify (set_loaded_modules_ (<[module_name := script]>));;
      modify (set_module_function_cache_ (add_to_cached_functions script hasattr));;
      log_message ("ScriptManager::load_script - Script Module Loaded: " +:+ module_name)
  | ImportError e =>
      log_exception "ScriptManager::load_script - Script Error." e
  end.

Definition reload_script (module_name : string)
    (py_reload : py_module → ReloadResult) : Host unit :=
  s ← get;
  match loaded_modules_ s !! module_name with
  | None => log_message "ScriptManager::reload_script - Error: Script not loaded."
  | Some script =>
      modify (set_module_function_cache_ (fmap (erase_found (name script))));;
      match py_reload (script_module script) with
      | Reloaded hasattr =>
          modify (set_module_function_cache_ (add_to_cached_functions script hasattr));;
          log_message ("ScriptManager::reload_script - Reloaded Module: " +:+ module_name)
      | ReloadError e =>
          log_exception "ScriptManager::reload_script - Error." e
      end
  end.

(** The body of the directory walk of [load_scripts]. *)
Fixpoint load_each (modules : list directory_entry)
    (py_import : path → string → ImportResult) : Host unit :=
  match modules with
  | [] => mret tt
  | module :: rest =>
      (if negb (is_regular_file module) then mret tt
       else if negb (String.eqb (extension (entry_path module)) ".py") then mret tt
       else load_script (entry_path module) py_import);;
      load_each rest py_import
  end.

Definition load_scripts (p : path)
    (py_import : path → string → ImportResult) : Host unit :=
  s ← get;
  let module_path :=
    if String.eqb p "" then join current_path (module_path_ s)
    else join current_path p in
  if negb (exists_ module_path) || negb (is_directory module_path) then
    log_message ("ScriptManager::load_scripts: directory not found - " +:+ module_path)
  else load_each (recursive_directory_iterator module_path) py_import.

(** *** dispatch_event

    [hasattr module] is the answer of [py::hasattr(module, event_key_name)]
    when the loop asks, and [attr module] is what calling that attribute
    does.  The functions
    return the records whose function they called, in call order; the C++
    function returns nothing, the list is there to state properties. *)

(** The cached branch: the loop over [cached_function_modules], a copy of
    the cache entry made before the first call. *)
Fixpoint dispatch_cached (event_key_name : string)
    (hasattr : py_module → bool) (attr : py_module → Handler)
    (cached_function_modules : list ScriptModule) : Host (list ScriptModule) :=
  match cached_function_modules with
  | [] => mret []
  | cached_module :: rest =>
      let script_module := script_module cached_module in
      called ← (if hasattr script_module then
                  log_message ("ScriptManager::dispatch_event - Dispatching cached event: "
                               +:+ event_key_name);;
                  outcome ← attr script_module;
                  match outcome with
                  | Returned => mret [cached_module]
                  | Raised e =>
                      log_exception "ScriptManager::dispatch_event - Script Error." e;;
                      mret [cached_module]
                  end
                else mret []);
      later ← dispatch_cached event_key_name hasattr attr rest;
      mret (called ++ later)
  end.

(** The other branch: the loop over [loaded_modules_].  The keys are those
    present when the loop starts, in the map's iteration order; the record
    of a key is read when the loop reaches it, so a record replaced in
    place by a call made from a script is seen.  (A key inserted while the
    loop runs is not visited: C++ leaves open whether an iteration reaches
    it, and a rehash ends the validity of the iterator.)  The result is
    [valid_modules] and the records called. *)
Fixpoint dispatch_loaded (event_key_name : string)
    (hasattr : py_module → bool) (attr : py_module → Handler)
    (keys : list string) (valid_modules : list ScriptModule)
    : Host (list ScriptModule * list ScriptModule) :=
  match keys with
  | [] => mret (valid_modules, [])
  | key :: rest =>
      s ← get;
      match loaded_modules_ s !! key with
      | None => dispatch_loaded event_key_name hasattr attr rest valid_modules
      | Some script =>
          let module := script_module script in
          if hasattr module then
            log_message ("ScriptManager::dispatch_event - Dispatching event: "
                         +:+ event_key_name);;
            outcome ← attr module;
            match outcome with
            | Returned =>
                '(valid, later) ← dispatch_loaded event_key_name hasattr attr rest
                                    (valid_modules ++ [script]);
                mret (valid, script :: later)
            | Raised e =>
                log_exception "ScriptManager::dispatch_event - Script Error." e;;
                '(valid, later) ← dispatch_loaded event_key_name hasattr attr rest
                                    valid_modules;
                mret (valid, script :: later)
            end
          else dispatch_loaded event_key_name hasattr attr rest valid_modules
      end
  end.

(** The [else] branch of [dispatch_event] as a whole. *)
Definition dispatch_uncached (event_key_name : string)
    (hasattr : py_module → bool) (attr : py_module → Handler)
    : Host (list ScriptModule) :=
  s ← get;
  '(valid_modules, called) ←
    dispatch_loaded event_key_name hasattr attr
      (map_to_list (loaded_modules_ s)).*1 [];
  match valid_modules with
  | [] => mret called
  | _ :: _ =>
      log_message ("ScriptManager::dispatch_event - Creating function cache for event: "
                   +:+ event_key_name);;
      modify (set_module_function_cache_ (<[event_key_name := valid_modules]>));;
      mret called
  end.

Definition dispatch_event (event_key_name : string)
    (hasattr : py_module → bool) (attr : py_module → Handler)
    : Host (list ScriptModule) :=
  s ← get;
  match module_function_cache_ s !! event_key_name with
  | Some cached_function_modules =>
      dispatch_cached event_key_name hasattr attr cached_function_modules
  | None => dispatch_uncached event_key_name hasattr attr
  end.

(** ** Sequences of host calls

    A call of the host interface with the interpreter's answers to it.  In
    [DispatchEvent], a script function is described by the host calls it
    makes before it returns or raises. *)
Inductive Call :=
| SetModulePath (p : string)
| LoadScript (module_path : path) (py_import : path → string → ImportResult)
| LoadScripts (p : path) (py_import : path → string → ImportResult)
| ReloadScript (module_name : string) (py_reload : py_module → ReloadResult)
| DispatchEvent (event_key_name : string)
    (hasattr : py_module → bool) (attr : py_module → Script)
with Script :=
| Return
| Raise (e : error_already_set)
| CallHost (c : Call) (rest : Script).

Fixpoint call (c : Call) : Host unit :=
  match c with
  | SetModulePath p => set_module_path p
  | LoadScript module_path py_import => load_script module_path py_import
  | LoadScripts p py_import => load_scripts p py_import
  | ReloadScript module_name py_reload => reload_script module_name py_reload
  | DispatchEvent event_key_name hasattr attr =>
      dispatch_event event_key_name hasattr (λ module, run_script (attr module));;
      mret tt
  end
with run_script (body : Script) : Handler :=
  match body with
  | Return => mret Returned
  | Raise e => mret (Raised e)
  | CallHost c rest => call c;; run_script rest
  end.

Fixpoint calls (cs : list Call) : Host unit :=
  match cs with
  | [] => mret tt
  | c :: rest => call c;; calls rest
  end.

(** The states the singleton can be in: [instance] is the fresh manager,
    and every host call leads from a state to the next. *)
Inductive reachable : ScriptManager → Prop :=
| reachable_instance : reachable instance
| reachable_call c s : reachable s → reachable (state (call c s)).

End Manager.

(** ** A concrete scene

    A small POSIX-like file system and interpreter, used to run the manager
    on explicit inputs.  The working directory is [/srv]; the directory
    [/srv/scripts] holds [a.py], [sub/b.py] and a text file.  Both scripts
    define [on_tick]. *)
Module Example.

Fixpoint split_last (c : Ascii.ascii) (p : string) : option (string * string) :=
  match p with
  | EmptyString => None
  | String a rest =>
      match split_last c rest with
      | Some (before, after) => Some (String a before, after)
      | None => if Ascii.eqb a c then Some (EmptyString, rest) else None
      end
  end.

Definition slash : Ascii.ascii := Ascii.ascii_of_nat 47.
Definition dot : Ascii.ascii := Ascii.ascii_of_nat 46.

Definition filename (p : path) : string :=
  match split_last slash p with Some (_, f) => f | None => p end.

Definition fs : Filesystem := {|
  current_path := "/srv";
  absolute p := if String.prefix "/" p then p else "/srv/" +:+ p;
  relative p base :=
    if String.prefix (base +:+ "/") p
    then String.substring (String.length base + 1) (String.length p) p
    else p;
  parent_path p := match split_last slash p with Some (d, _) => d | None => "" end;
  stem p := match split_last dot (filename p) with
            | Some (String a b, _) => String a b
            | _ => filename p
            end;
  extension p := match split_last dot (filename p) with
                 | Some (String _ _, e) => "." +:+ e
                 | _ => ""
                 end;
  join a b := if String.prefix "/" b then b else a +:+ "/" +:+ b;
  exists_ p := String.eqb p "/srv/scripts";
  is_directory p := String.eqb p "/srv/scripts";
  recursive_directory_iterator p :=
    [ {| entry_path := "/srv/scripts/a.py"; is_regular_file := true |};
      {| entry_path := "/srv/scripts/sub"; is_regular_file := false |};
      {| entry_path := "/srv/scripts/sub/b.py"; is_regular_file := true |};
      {| entry_path := "/srv/scripts/notes.txt"; is_regular_file := true |} ];
|}.

Definition a : ScriptModule :=
  {| name := "a"; script_module := 1;
     absolute_path := "/srv/scripts/a.py"; relative_path := "scripts/a.py" |}.
Definition b : ScriptModule :=
  {| name := "b"; script_module := 2;
     absolute_path := "/srv/scripts/sub/b.py"; relative_path := "scripts/sub/b.py" |}.

Definition SyntaxError : error_already_set :=
  {| what := "SyntaxError: invalid syntax"; traceback := None |}.
Definition ValueError : error_already_set :=
  {| what := "ValueError: boom"; traceback := Some "  File a.py, line 2, in on_tick" |}.

(** [import a] and [import b] give the modules 1 and 2, each defining
    [on_tick]; no other module can be imported. *)
Definition py_import : path → string → ImportResult := λ _ module_name,
  if String.eqb module_name "a" then Imported 1 (λ f, String.eqb f "on_tick")
  else if String.eqb module_name "b" then Imported 2 (λ f, String.eqb f "on_tick")
  else ImportError SyntaxError.

(** Every reload fails, as with a syntax error in the edited file. *)
Definition reload_fails : py_module → ReloadResult := λ _, ReloadError SyntaxError.

(** A reload after [on_tick] was replaced by [on_join] in the file. *)
Definition reload_on_join : py_module → ReloadResult :=
  λ _, Reloaded (λ f, String.eqb f "on_join").

(** A reload of a file that still defines [on_tick]. *)
Definition reload_on_tick : py_module → ReloadResult :=
  λ _, Reloaded (λ f, String.eqb f "on_tick").

(** Both modules have [on_tick], no other module has. *)
Definition has_on_tick : py_module → bool := λ module,
  (module =? 1) || (module =? 2).

(** [on_tick] of both modules returns. *)
Definition ticks : py_module → Script := λ _, Return.

(** [a.on_tick] raises, [b.on_tick] returns. *)
Definition a_raises : py_module → Script := λ module,
  if module =? 1 then Raise ValueError else Return.

(** [a.on_tick] calls [reload_script("b")], which fails, and returns;
    [b.on_tick] returns. *)
Definition a_reloads_b : py_module → Script := λ module,
  if module =? 1 then CallHost (ReloadScript "b" reload_fails) Return else Return.

(** After [set_module_path("scripts")] and [load_scripts()]. *)
Definition loaded : ScriptManager :=
  state (calls (FS := fs) [SetModulePath "scripts"; LoadScripts "" py_import] instance).

(** After that, a first [dispatch_event("on_tick")] in which both return. *)
Definition ticked : ScriptManager :=
  state (call (FS := fs) (DispatchEvent "on_tick" has_on_tick ticks) loaded).

(** [load_script("scripts/a.py")], a first [dispatch_event("on_tick")], and
    [load_script("scripts/a.py")] once more. *)
Definition loaded_twice : ScriptManager :=
  state (calls (FS := fs)
           [LoadScript "scripts/a.py" py_import;
            DispatchEvent "on_tick" has_on_tick ticks;
            LoadScript "scripts/a.py" py_import] instance).

(** [a.py] loaded and dispatched to, then edited so that [on_tick] is gone,
    and reloaded. *)
Definition emptied : ScriptManager :=
  state (calls (FS := fs)
           [LoadScript "scripts/a.py" py_import;
            DispatchEvent "on_tick" has_on_tick ticks;
            ReloadScript "a" reload_on_join] instance).



(** After [ticked], [load_script("scripts/sub/b.py")] once more. *)
Definition b_twice : ScriptManager :=
  state (call (FS := fs) (LoadScript "scripts/sub/b.py" py_import) ticked).

(** [load_script("scripts/a.py")] and a first [dispatch_event("on_tick")]. *)
Definition a_ticked : ScriptManager :=
  state (calls (FS := fs)
           [LoadScript "scripts/a.py" py_import;
            DispatchEvent "on_tick" has_on_tick ticks] instance).

End Example.

(** ** Relations between the state before and the state after *)

(** The cache lost no key. *)
Definition keeps_keys (s s' : ScriptManager) : Prop :=
  dom (module_function_cache_ s) ⊆ dom (module_function_cache_ s').

(** The registry files every record under its own name. *)
Definition keyed_by_name (s : ScriptManager) : Prop :=
  ∀ key script, loaded_modules_ s !! key = Some script → name script = key.

(** The registry has an entry for the name of every cached record. *)
Definition cached_are_loaded (s : ScriptManager) : Prop :=
  ∀ event_key_name modules script,
    module_function_cache_ s !! event_key_name = Some modules →
    script ∈ modules →
    is_Some (loaded_modules_ s !! name script).

Definition consistent (s : ScriptManager) : Prop :=
  keyed_by_name s ∧ cached_are_loaded s.

(** Consistency carries over, and the registry lost no key. *)
Definition stays_consistent (s s' : ScriptManager) : Prop :=
  consistent s →
  consistent s' ∧ dom (loaded_modules_ s) ⊆ dom (loaded_modules_ s').

(** The registry lost no key. *)
Definition keeps_modules (s s' : ScriptManager) : Prop :=
  dom (loaded_modules_ s) ⊆ dom (loaded_modules_ s').

(** The directory entries [load_scripts] passes on to [load_script]. *)
Definition is_script {FS : Filesystem} (module : directory_entry) : bool :=
  is_regular_file module && String.eqb (extension (entry_path module)) ".py".

(** The module name [load_script] derives from a path. *)
Definition module_name_of {FS : Filesystem} (module_path : path) : string :=
  stem (relative (absolute module_path) current_path).

(** The manager with another module path. *)
Definition with_module_path (p : string) (s : ScriptManager) : ScriptManager :=
  {| module_path_ := p;
     loaded_modules_ := loaded_modules_ s;
     module_function_cache_ := module_function_cache_ s |}.

(** Every script function leaves the manager in a state related to the one
    it was called in. *)
Definition handlers_keep (R : relation ScriptManager) (attr : py_module → Handler) : Prop :=
  ∀ module s, R s (state (attr module s)).

(** * Properties *)

(** ** Running [bind] *)

Lemma state_bind {A B} (m : Host A) (k : A → Host B) s :
  state ((m ≫= k) s) = state (k (result (m s)) (state (m s))).
Proof.
  unfold mbind, Host_bind, bind, state, result.
  destruct (m s) as [[x s1] l1]; simpl. by destruct (k x s1) as [[y s2] l2].
Qed.

Lemma result_bind {A B} (m : Host A) (k : A → Host B) s :
  result ((m ≫= k) s) = result (k (result (m s)) (state (m s))).
Proof.
  unfold mbind, Host_bind, bind, state, result.
  destruct (m s) as [[x s1] l1]; simpl. by destruct (k x s1) as [[y s2] l2].
Qed.

Lemma logged_bind {A B} (m : Host A) (k : A → Host B) s :
  logged ((m ≫= k) s) = logged (m s) ++ logged (k (result (m s)) (state (m s))).
Proof.
  unfold mbind, Host_bind, bind, state, result, logged.
  destruct (m s) as [[x s1] l1]; simpl. by destruct (k x s1) as [[y s2] l2].
Qed.

Lemma result_mret {A} (x : A) s : result (mret (M := Host) x s) = x.
Proof. done. Qed.

Lemma state_mret {A} (x : A) s : state (mret (M := Host) x s) = s.
Proof. done. Qed.

Lemma state_log_exception where_ e s : state (log_exception where_ e s) = s.
Proof. unfold log_exception. rewrite state_bind. by destruct (traceback e). Qed.

Lemma logged_log_exception where_ e s :
  logged (log_exception where_ e s)
  = (where_ +:+ nl +:+ what e)
    :: match traceback e with Some tb => ["Trace:" +:+ nl +:+ tb] | None => [] end.
Proof. unfold log_exception. rewrite logged_bind. by destruct (traceback e). Qed.

Create Rewrite HintDb host.
#[global] Hint Rewrite @state_bind @result_bind @logged_bind @result_mret @state_mret
  state_log_exception logged_log_exception : host.

Ltac host_simpl :=
  repeat (autorewrite with host;
          cbn [get modify log_message result state logged fst snd]).

Ltac host_unfold :=
  unfold log_exception in *;
  unfold mbind, mret, Host_bind, Host_ret, bind, ret, get, modify, log_message in *.

(** ** The two cache loops *)

Lemma lookup_add_to_cached_functions script hasattr
    (cache : gmap string (list ScriptModule)) function_name :
  add_to_cached_functions script hasattr cache !! function_name
  = (λ modules, if hasattr function_name then modules ++ [script] else modules)
      <$> cache !! function_name.
Proof.
  unfold add_to_cached_functions. rewrite map_lookup_imap.
  by destruct (cache !! function_name).
Qed.

Lemma dom_add_to_cached_functions script hasattr
    (cache : gmap string (list ScriptModule)) :
  dom (add_to_cached_functions script hasattr cache) = dom cache.
Proof.
  apply set_eq. intros k. rewrite !elem_of_dom, lookup_add_to_cached_functions.
  apply fmap_is_Some.
Qed.

Lemma erase_found_others module_name modules :
  filter (λ m, name m ≠ module_name) (erase_found module_name modules)
  = filter (λ m, name m ≠ module_name) modules.
Proof.
  induction modules as [|m ms IH]; simpl; [done|].
  destruct (decide (name m = module_name)) as [Heq|Hne].
  - by rewrite (filter_cons_False _ m) by (intros Hn; exact (Hn Heq)).
  - by rewrite !filter_cons_True, IH by done.
Qed.

Lemma erase_found_subseteq module_name modules :
  erase_found module_name modules ⊆ modules.
Proof.
  induction modules as [|m ms IH]; simpl; [done|].
  destruct (decide (name m = module_name)); intros x Hx.
  - by apply list_elem_of_further.
  - apply elem_of_cons in Hx as [->|Hx]; [apply list_elem_of_here|].
    apply list_elem_of_further. by apply IH.
Qed.

(** With at most one record of that name in the list, none is left. *)
Lemma erase_found_unique module_name modules :
  NoDup (name <$> modules) →
  ∀ m, m ∈ erase_found module_name modules → name m ≠ module_name.
Proof.
  induction modules as [|m0 ms IH]; simpl; [set_solver|].
  rewrite NoDup_cons. intros [Hnotin Hnodup] m.
  destruct (decide (name m0 = module_name)) as [Heq|Hne].
  - intros Hin Hname. apply Hnotin. rewrite Heq, <- Hname.
    by apply list_elem_of_fmap_2.
  - rewrite elem_of_cons. intros [->|Hin]; [done|]. by apply IH.
Qed.

Section Operations.
Context {FS : Filesystem}.

(** ** load_script *)

(** C9.  When the import of [load_script] raises, the call returns, the
    manager is what it was before the call (registry, cache and module path)
    and the log received the error message, followed by the traceback when
    there is one. *)
Theorem load_script_import_error module_path py_import e s :
  py_import (absolute (parent_path module_path))
            (stem (relative (absolute module_path) current_path))
    = ImportError e →
  load_script module_path py_import s
  = (tt, s,
     ("ScriptManager::load_script - Script Error." +:+ nl +:+ what e)
     :: match traceback e with
        | Some tb => ["Trace:" +:+ nl +:+ tb]
        | None => []
        end).
Proof.
  intros Himport. unfold load_script. rewrite Himport.
  host_unfold. by destruct (traceback e).
Qed.

(** ** reload_script *)

Lemma reload_script_reloaded module_name py_reload script hasattr s :
  loaded_modules_ s !! module_name = Some script →
  py_reload (script_module script) = Reloaded hasattr →
  state (reload_script module_name py_reload s)
  = set_module_function_cache_
      (λ cache, add_to_cached_functions script hasattr
                  (erase_found (name script) <$> cache)) s.
Proof.
  intros Hloaded Hreload. unfold reload_script.
  rewrite state_bind. cbn [get result state fst snd].
  rewrite Hloaded, state_bind, Hreload, state_bind. done.
Qed.

Lemma reload_script_error module_name py_reload script e s :
  loaded_modules_ s !! module_name = Some script →
  py_reload (script_module script) = ReloadError e →
  state (reload_script module_name py_reload s)
  = set_module_function_cache_ (fmap (erase_found (name script))) s.
Proof.
  intros Hloaded Hreload. unfold reload_script.
  rewrite state_bind. cbn [get result state fst snd].
  rewrite Hloaded, state_bind, Hreload, state_log_exception. done.
Qed.

(** C8.  After a successful [reload_script], every cache entry is the old
    list without its first record of that name, with the reloaded record
    added at the end when the module has an attribute of the entry's name.
    The records of the other modules keep their relative order, and the
    registry is unchanged. *)
Theorem reload_script_appends module_name py_reload script hasattr s :
  loaded_modules_ s !! module_name = Some script →
  py_reload (script_module script) = Reloaded hasattr →
  let s' := state (reload_script module_name py_reload s) in
  loaded_modules_ s' = loaded_modules_ s ∧
  dom (module_function_cache_ s') = dom (module_function_cache_ s) ∧
  ∀ function_name modules,
    module_function_cache_ s !! function_name = Some modules →
    ∃ modules',
      module_function_cache_ s' !! function_name = Some modules' ∧
      modules' = erase_found (name script) modules
                 ++ (if hasattr function_name then [script] else []) ∧
      filter (λ m, name m ≠ name script) modules'
      = filter (λ m, name m ≠ name script) modules.
Proof.
  intros Hloaded Hreload s'. subst s'.
  rewrite (reload_script_reloaded _ _ _ _ _ Hloaded Hreload).
  cbn [set_module_function_cache_ loaded_modules_ module_function_cache_].
  split; [done|]. split.
  { rewrite dom_add_to_cached_functions. apply dom_fmap_L. }
  intros function_name modules Hcached. eexists. split; [|split; [reflexivity|]].
  - rewrite lookup_add_to_cached_functions, lookup_fmap, Hcached. simpl.
    f_equal. destruct (hasattr function_name); [done|]. by rewrite app_nil_r.
  - rewrite filter_app, erase_found_others.
    destruct (hasattr function_name); [|by rewrite app_nil_r].
    rewrite filter_cons_False by (intros Hn; by apply Hn).
    by rewrite app_nil_r.
Qed.

(** ** dispatch_event *)

Lemma dispatch_cached_result event_key_name hasattr attr modules s :
  result (dispatch_cached event_key_name hasattr attr modules s)
  = filter (λ m, hasattr (script_module m)) modules.
Proof.
  revert s. induction modules as [|m ms IH]; intros s; [done|].
  cbn [dispatch_cached]. cbv zeta. rewrite result_bind.
  destruct (hasattr (script_module m)) eqn:Hm.
  - rewrite filter_cons_True by (by apply Is_true_true_2).
    rewrite result_bind, IH. host_simpl.
    destruct (result (attr _ s)); by host_simpl.
  - rewrite filter_cons_False by (by apply Is_true_false_2).
    by rewrite result_bind, IH.
Qed.

(** C10.  When the event is in the cache, [dispatch_event] calls the
    records of the cache entry as it was when the call began, in order,
    each one whose module has the attribute; this holds whatever the called
    functions do to the manager meanwhile. *)
Theorem dispatch_event_cached_copy event_key_name hasattr attr modules s :
  module_function_cache_ s !! event_key_name = Some modules →
  result (dispatch_event event_key_name hasattr attr s)
  = filter (λ m, hasattr (script_module m)) modules.
Proof.
  intros Hcached. unfold dispatch_event. rewrite result_bind.
  cbn [get result state fst snd]. rewrite Hcached.
  apply dispatch_cached_result.
Qed.

End Operations.

(** ** What every host call preserves

    A relation between the state before and the state after that is a
    preorder and holds across the three simple operations and across the
    store into the cache at the end of an uncached dispatch, holds across
    every host call, whatever the scripts called on the way do. *)

Scheme Call_mutual := Induction for Call Sort Prop
  with Script_mutual := Induction for Script Sort Prop.
Combined Scheme Call_Script_ind from Call_mutual, Script_mutual.

Section Across.
Context {FS : Filesystem}.
Variable R : relation ScriptManager.
Context `{!PreOrder R}.

Lemma dispatch_cached_across event_key_name hasattr attr modules s :
  handlers_keep R attr →
  R s (state (dispatch_cached event_key_name hasattr attr modules s)).
Proof.
  intros Hattr. revert s. induction modules as [|m ms IH]; intros s; [done|].
  cbn [dispatch_cached]. cbv zeta. host_simpl.
  etrans; [|apply IH].
  destruct (hasattr (script_module m)); host_simpl; [|done].
  destruct (result (attr _ s)); host_simpl; apply Hattr.
Qed.

(** Every record of [valid_modules] was read from the registry in a state
    between the start and the end of the loop. *)
Lemma dispatch_loaded_across event_key_name hasattr attr keys valid_modules s :
  handlers_keep R attr →
  let run := dispatch_loaded event_key_name hasattr attr keys valid_modules s in
  R s (state run) ∧
  ∀ script, script ∈ (result run).1 →
    script ∈ valid_modules ∨
    ∃ s' key, R s s' ∧ R s' (state run) ∧ loaded_modules_ s' !! key = Some script.
Proof.
  intros Hattr. revert valid_modules s.
  induction keys as [|key rest IH]; intros valid_modules s; cbn [dispatch_loaded].
  { split; [done|]. intros script Hin. by left. }
  host_simpl.
  destruct (loaded_modules_ s !! key) as [script0|] eqn:Hkey; [|apply IH].
  cbv zeta. destruct (hasattr (script_module script0)); [|apply IH].
  host_simpl. pose proof (Hattr (script_module script0) s) as Hs1.
  set (s1 := state (attr _ s)) in *.
  destruct (result (attr _ s)) as [|e]; host_simpl.
  - destruct (IH (valid_modules ++ [script0]) s1) as [Hrun Hvalid].
    destruct (dispatch_loaded _ _ _ rest _ s1) as [[[valid later] s2] l2].
    cbn [result state fst snd] in *.
    split; [by etrans|]. intros script Hin.
    destruct (Hvalid script Hin) as [Hold|(s' & key' & H1 & H2 & H3)].
    + apply elem_of_app in Hold as [Hold|Hnew]; [by left|].
      apply list_elem_of_singleton in Hnew as ->.
      right. exists s, key. split; [done|]. split; [by etrans|done].
    + right. exists s', key'. split; [by etrans|done].
  - destruct (IH valid_modules s1) as [Hrun Hvalid].
    destruct (dispatch_loaded _ _ _ rest _ s1) as [[[valid later] s2] l2].
    cbn [result state fst snd] in *.
    split; [by etrans|]. intros script Hin.
    destruct (Hvalid script Hin) as [Hold|(s' & key' & H1 & H2 & H3)]; [by left|].
    right. exists s', key'. split; [by etrans|done].
Qed.

Hypothesis set_module_path_keeps : ∀ p s, R s (state (set_module_path p s)).
Hypothesis load_script_keeps :
  ∀ module_path py_import s, R s (state (load_script module_path py_import s)).
Hypothesis reload_script_keeps :
  ∀ module_name py_reload s, R s (state (reload_script module_name py_reload s)).
Hypothesis store_keeps :
  ∀ event_key_name valid_modules s0 s,
    R s0 s →
    (∀ script, script ∈ valid_modules →
       ∃ s' key, R s0 s' ∧ R s' s ∧ loaded_modules_ s' !! key = Some script) →
    R s0 (set_module_function_cache_ (<[event_key_name := valid_modules]>) s).

Lemma load_each_across modules py_import s :
  R s (state (load_each modules py_import s)).
Proof.
  revert s. induction modules as [|module rest IH]; intros s; [done|].
  cbn [load_each]. host_simpl. etrans; [|apply IH].
  destruct (negb (is_regular_file module)); [done|].
  destruct (negb _); [done|]. apply load_script_keeps.
Qed.

Lemma load_scripts_across p py_import s :
  R s (state (load_scripts p py_import s)).
Proof.
  unfold load_scripts. host_simpl.
  destruct (_ || _); [done|]. apply load_each_across.
Qed.

Lemma dispatch_uncached_across event_key_name hasattr attr s :
  handlers_keep R attr →
  R s (state (dispatch_uncached event_key_name hasattr attr s)).
Proof.
  intros Hattr. unfold dispatch_uncached. host_simpl.
  destruct (dispatch_loaded_across event_key_name hasattr attr
              (map_to_list (loaded_modules_ s)).*1 [] s Hattr) as [Hrun Hvalid].
  destruct (dispatch_loaded _ _ _ _ _ s) as [[[valid called] s1] l1].
  cbn [result state fst snd] in *.
  destruct valid as [|script valid]; host_simpl; [done|].
  apply store_keeps; [done|]. intros script' Hin.
  destruct (Hvalid script' Hin) as [Hnil|?]; [|done]. by apply elem_of_nil in Hnil.
Qed.

Lemma dispatch_event_across event_key_name hasattr attr s :
  handlers_keep R attr →
  R s (state (dispatch_event event_key_name hasattr attr s)).
Proof.
  intros Hattr. unfold dispatch_event. host_simpl.
  destruct (module_function_cache_ s !! event_key_name).
  - by apply dispatch_cached_across.
  - by apply dispatch_uncached_across.
Qed.

Lemma call_and_script_across :
  (∀ c s, R s (state (call c s))) ∧
  (∀ body s, R s (state (run_script body s))).
Proof.
  apply Call_Script_ind; cbn [call run_script].
  - apply set_module_path_keeps.
  - apply load_script_keeps.
  - apply load_scripts_across.
  - apply reload_script_keeps.
  - intros event_key_name hasattr attr IH s. host_simpl.
    apply dispatch_event_across. intros module s0. apply IH.
  - done.
  - done.
  - intros c IHc rest IHrest s. host_simpl. etrans; [apply IHc|apply IHrest].
Qed.

Lemma call_across c s : R s (state (call c s)).
Proof. apply call_and_script_across. Qed.

Lemma calls_across cs s : R s (state (calls cs s)).
Proof.
  revert s. induction cs as [|c rest IH]; intros s; [done|].
  cbn [calls]. host_simpl. etrans; [apply call_across|apply IH].
Qed.

End Across.

(** ** Cache keys stay *)

#[local] Instance keeps_keys_preorder : PreOrder keeps_keys.
Proof.
  split.
  - intros s. unfold keeps_keys. done.
  - intros s1 s2 s3. unfold keeps_keys. intros H12 H23. by etrans.
Qed.

Section Keys.
Context {FS : Filesystem}.

Lemma load_script_state module_path py_import s :
  state (load_script module_path py_import s)
  = match py_import (absolute (parent_path module_path))
                    (stem (relative (absolute module_path) current_path)) with
    | Imported module hasattr =>
        let module_name := stem (relative (absolute module_path) current_path) in
        let script := {| name := module_name; script_module := module;
                         absolute_path := absolute module_path;
                         relative_path := relative (absolute module_path) current_path |} in
        set_module_function_cache_ (add_to_cached_functions script hasattr)
          (set_loaded_modules_ (<[module_name := script]>) s)
    | ImportError e => s
    end.
Proof.
  unfold load_script. destruct (py_import _ _); by host_simpl.
Qed.

Lemma reload_script_state module_name py_reload s :
  state (reload_script module_name py_reload s)
  = match loaded_modules_ s !! module_name with
    | None => s
    | Some script =>
        match py_reload (script_module script) with
        | Reloaded hasattr =>
            set_module_function_cache_
              (λ cache, add_to_cached_functions script hasattr
                          (erase_found (name script) <$> cache)) s
        | ReloadError e =>
            set_module_function_cache_ (fmap (erase_found (name script))) s
        end
    end.
Proof.
  unfold reload_script. host_simpl.
  destruct (loaded_modules_ s !! module_name) as [script|] eqn:Hloaded; [|done].
  host_simpl. destruct (py_reload _); by host_simpl.
Qed.

Lemma set_module_path_keeps_keys p s : keeps_keys s (state (set_module_path p s)).
Proof. by unfold keeps_keys. Qed.

Lemma load_script_keeps_keys module_path py_import s :
  keeps_keys s (state (load_script module_path py_import s)).
Proof.
  rewrite load_script_state. unfold keeps_keys.
  destruct (py_import _ _); [|done].
  cbn [set_module_function_cache_ set_loaded_modules_ module_function_cache_].
  by rewrite dom_add_to_cached_functions.
Qed.

Lemma reload_script_keeps_keys module_name py_reload s :
  keeps_keys s (state (reload_script module_name py_reload s)).
Proof.
  rewrite reload_script_state. unfold keeps_keys.
  destruct (loaded_modules_ s !! module_name); [|done].
  destruct (py_reload _);
    cbn [set_module_function_cache_ module_function_cache_];
    by rewrite ?dom_add_to_cached_functions, dom_fmap_L.
Qed.

Lemma store_keeps_keys event_key_name valid_modules s0 s :
  keeps_keys s0 s →
  keeps_keys s0 (set_module_function_cache_ (<[event_key_name := valid_modules]>) s).
Proof.
  unfold keeps_keys. cbn [set_module_function_cache_ module_function_cache_].
  rewrite dom_insert_L. set_solver.
Qed.

Lemma call_keeps_keys c s : keeps_keys s (state (call c s)).
Proof.
  apply (call_across keeps_keys).
  - apply set_module_path_keeps_keys.
  - apply load_script_keeps_keys.
  - apply reload_script_keeps_keys.
  - intros. by apply store_keeps_keys.
Qed.

(** C6.  When the cache holds an empty list for the event, [dispatch_event]
    calls no function, asks the interpreter nothing, logs nothing and leaves
    the manager as it is: the result does not depend on the registry or on
    the interpreter.  And in every state, whatever the cache holds, a
    dispatch, with whatever host calls the scripts make during it, never
    takes a key out of the cache. *)
Theorem dispatch_event_empty_entry s :
  (∀ event_key_name,
     module_function_cache_ s !! event_key_name = Some [] →
     ∀ hasattr attr, dispatch_event event_key_name hasattr attr s = ([], s, [])) ∧
  (∀ event_key_name hasattr attr key,
     key ∈ dom (module_function_cache_ s) →
     key ∈ dom (module_function_cache_
                  (state (call (DispatchEvent event_key_name hasattr attr) s)))).
Proof.
  split.
  - intros event_key_name Hcached hasattr attr. unfold dispatch_event.
    unfold mbind, Host_bind, bind, get. by rewrite Hcached.
  - intros event_key_name hasattr attr key Hkey.
    by apply (call_keeps_keys (DispatchEvent event_key_name hasattr attr) s).
Qed.

End Keys.

(** ** Cached records are loaded *)

#[local] Instance stays_consistent_preorder : PreOrder stays_consistent.
Proof.
  split.
  - intros s Hs. done.
  - intros s1 s2 s3 H12 H23 Hs1.
    destruct (H12 Hs1) as [Hs2 Hdom12]. destruct (H23 Hs2) as [Hs3 Hdom23].
    split; [done|]. by etrans.
Qed.

Lemma instance_consistent : consistent instance.
Proof.
  split.
  - intros key script Hkey. unfold instance in Hkey.
    cbn [loaded_modules_] in Hkey. by rewrite lookup_empty in Hkey.
  - intros event_key_name modules script Hcached. unfold instance in Hcached.
    cbn [module_function_cache_] in Hcached. by rewrite lookup_empty in Hcached.
Qed.

Section Consistency.
Context {FS : Filesystem}.

Lemma set_module_path_stays_consistent p s :
  stays_consistent s (state (set_module_path p s)).
Proof. intros Hs. done. Qed.

Lemma load_script_stays_consistent module_path py_import s :
  stays_consistent s (state (load_script module_path py_import s)).
Proof.
  rewrite load_script_state. intros [Hkeyed Hcached].
  destruct (py_import _ _) as [module hasattr|e]; [|done].
  cbv zeta. set (module_name := stem _).
  match goal with |- context [add_to_cached_functions ?x] => set (script := x) end.
  split; [split|].
  - intros key script' Hkey.
    cbn [set_module_function_cache_ set_loaded_modules_ loaded_modules_] in Hkey.
    apply lookup_insert_Some in Hkey as [[<- <-]|[_ Hkey]]; [done|by apply Hkeyed].
  - intros function_name modules script' Hlookup Hin.
    cbn [set_module_function_cache_ set_loaded_modules_
         loaded_modules_ module_function_cache_] in *.
    rewrite lookup_add_to_cached_functions in Hlookup.
    destruct (module_function_cache_ s !! function_name) as [old|] eqn:Hold;
      [|done].
    injection Hlookup as <-.
    assert (script' ∈ old ∨ script' = script) as [Hin'| ->].
    { destruct (hasattr function_name); [|by left].
      apply elem_of_app in Hin as [?|Hin]; [by left|].
      right. by apply list_elem_of_singleton. }
    + destruct (Hcached _ _ _ Hold Hin') as [x Hx].
      destruct (decide (module_name = name script')) as [Heq|Hne].
      * rewrite <- Heq, lookup_insert_eq. by eexists.
      * rewrite lookup_insert_ne by done. by eexists.
    + cbn [name script]. rewrite lookup_insert_eq. by eexists.
  - cbn [set_module_function_cache_ set_loaded_modules_ loaded_modules_].
    rewrite dom_insert_L. set_solver.
Qed.

Lemma reload_script_stays_consistent module_name py_reload s :
  stays_consistent s (state (reload_script module_name py_reload s)).
Proof.
  rewrite reload_script_state. intros [Hkeyed Hcached].
  destruct (loaded_modules_ s !! module_name) as [script|] eqn:Hloaded; [|done].
  assert (∀ function_name modules script',
            (erase_found (name script) <$> module_function_cache_ s) !! function_name
              = Some modules →
            script' ∈ modules →
            is_Some (loaded_modules_ s !! name script')) as Herased.
  { intros function_name modules script' Hlookup Hin.
    rewrite lookup_fmap in Hlookup.
    destruct (module_function_cache_ s !! function_name) as [old|] eqn:Hold;
      [|done].
    injection Hlookup as <-. apply (Hcached _ _ _ Hold).
    by apply (erase_found_subseteq (name script)). }
  destruct (py_reload _) as [hasattr|e]; (split; [split|done]); [done| |done|].
  - intros function_name modules script' Hlookup Hin.
    cbn [set_module_function_cache_ loaded_modules_ module_function_cache_] in *.
    rewrite lookup_add_to_cached_functions in Hlookup.
    destruct ((erase_found (name script) <$> module_function_cache_ s) !! function_name)
      as [old|] eqn:Hold; [|done].
    injection Hlookup as <-.
    assert (script' ∈ old ∨ script' = script) as [Hin'| ->].
    { destruct (hasattr function_name); [|by left].
      apply elem_of_app in Hin as [?|Hin]; [by left|].
      right. by apply list_elem_of_singleton. }
    + by apply (Herased _ _ _ Hold).
    + rewrite (Hkeyed _ _ Hloaded), Hloaded. by eexists.
  - intros function_name modules script' Hlookup Hin.
    by apply (Herased function_name modules).
Qed.

Lemma store_stays_consistent event_key_name valid_modules s0 s :
  stays_consistent s0 s →
  (∀ script, script ∈ valid_modules →
     ∃ s' key, stays_consistent s0 s' ∧ stays_consistent s' s
               ∧ loaded_modules_ s' !! key = Some script) →
  stays_consistent s0
    (set_module_function_cache_ (<[event_key_name := valid_modules]>) s).
Proof.
  intros Hrun Hvalid Hs0. destruct (Hrun Hs0) as [[Hkeyed Hcached] Hdom].
  split; [split|done]; [done|].
  intros function_name modules script Hlookup Hin.
  cbn [set_module_function_cache_ loaded_modules_ module_function_cache_] in *.
  apply lookup_insert_Some in Hlookup as [[<- <-]|[_ Hlookup]].
  - destruct (Hvalid script Hin) as (s' & key & H1 & H2 & Hkey).
    destruct (H1 Hs0) as [Hs' _]. destruct (H2 Hs') as [_ Hdom'].
    destruct Hs' as [Hkeyed' _]. rewrite (Hkeyed' _ _ Hkey).
    apply elem_of_dom, Hdom', elem_of_dom. by eexists.
  - by apply (Hcached function_name modules).
Qed.

Lemma call_stays_consistent c s : stays_consistent s (state (call c s)).
Proof.
  apply (call_across stays_consistent).
  - apply set_module_path_stays_consistent.
  - apply load_script_stays_consistent.
  - apply reload_script_stays_consistent.
  - apply store_stays_consistent.
Qed.

Lemma reachable_consistent s : reachable s → consistent s.
Proof.
  induction 1 as [|c s Hs IH]; [apply instance_consistent|].
  by apply (call_stays_consistent c s).
Qed.

(** C4.  In every state the manager can reach from the fresh instance by
    host calls (set_module_path, load_script, load_scripts, reload_script,
    dispatch_event, the calls made by scripts during a dispatch included),
    the registry has an entry under the name of every record of every cache
    entry. *)
Theorem cache_is_subset_of_registry s event_key_name modules script :
  reachable s →
  module_function_cache_ s !! event_key_name = Some modules →
  script ∈ modules →
  is_Some (loaded_modules_ s !! name script).
Proof.
  intros Hs. destruct (reachable_consistent s Hs) as [_ Hcached].
  apply Hcached.
Qed.

End Consistency.

(** ** The uncached branch *)

Section Uncached.
Context {FS : Filesystem}.

Lemma dispatch_uncached_run event_key_name hasattr attr s :
  let scan := dispatch_loaded event_key_name hasattr attr
                (map_to_list (loaded_modules_ s)).*1 [] s in
  result (dispatch_uncached event_key_name hasattr attr s) = (result scan).2 ∧
  state (dispatch_uncached event_key_name hasattr attr s)
  = match (result scan).1 with
    | [] => state scan
    | _ :: _ =>
        set_module_function_cache_ (<[event_key_name := (result scan).1]>) (state scan)
    end.
Proof.
  cbv zeta. unfold dispatch_uncached. host_simpl.
  destruct (dispatch_loaded _ _ _ _ _ s) as [[[valid called] s1] l1].
  cbn [result state fst snd]. by destruct valid; host_simpl.
Qed.

Lemma dispatch_event_uncached event_key_name hasattr attr s :
  module_function_cache_ s !! event_key_name = None →
  dispatch_event event_key_name hasattr attr s
  = dispatch_uncached event_key_name hasattr attr s.
Proof.
  intros Hmiss. unfold dispatch_event at 1.
  unfold mbind at 1, Host_bind at 1, bind at 1, get at 1. rewrite Hmiss.
  destruct (dispatch_uncached _ _ _ s) as [[called s'] l]. by rewrite app_nil_l.
Qed.


(** ** Isolation *)



End Uncached.

(** ** What the loops do when scripts leave the registry alone *)

Section Plain.
Context {FS : Filesystem}.

Lemma map_to_list_values (m : gmap string ScriptModule) :
  omap (λ key, m !! key) (map_to_list m).*1 = (map_to_list m).*2.
Proof.
  assert (∀ l : list (string * ScriptModule),
            Forall (λ kv, m !! kv.1 = Some kv.2) l →
            omap (λ key, m !! key) l.*1 = l.*2) as Hall.
  { induction l as [|[key script] l IH]; [done|].
    rewrite Forall_cons. intros [Hkey Hl]. rewrite !fmap_cons.
    cbn [omap list_omap fst snd] in *. rewrite Hkey. f_equal. by apply IH. }
  apply Hall, Forall_forall. intros [key script] Hin.
  by apply elem_of_map_to_list.
Qed.

(** The uncached branch calls every loaded record whose module has the
    attribute, whether the functions return or raise. *)
Lemma dispatch_loaded_calls_every_match event_key_name hasattr attr keys
    valid_modules s :
  (∀ module s, loaded_modules_ (state (attr module s)) = loaded_modules_ s) →
  (result (dispatch_loaded event_key_name hasattr attr keys valid_modules s)).2
  = filter (λ m, hasattr (script_module m))
      (omap (λ key, loaded_modules_ s !! key) keys) ∧
  loaded_modules_ (state (dispatch_loaded event_key_name hasattr attr keys
                            valid_modules s))
  = loaded_modules_ s.
Proof.
  intros Hplain. revert valid_modules s.
  induction keys as [|key rest IH]; intros valid_modules s;
    cbn [dispatch_loaded omap list_omap]; [done|].
  host_simpl. destruct (loaded_modules_ s !! key) as [script|] eqn:Hkey;
    [|apply IH].
  cbv zeta. destruct (hasattr (script_module script)) eqn:Hm.
  2: { rewrite filter_cons_False by (by apply Is_true_false_2). apply IH. }
  rewrite filter_cons_True by (by apply Is_true_true_2).
  host_simpl. rewrite <- (Hplain (script_module script) s).
  set (s1 := state (attr _ s)).
  destruct (result (attr _ s)) as [|e]; host_simpl.
  - destruct (IH (valid_modules ++ [script]) s1) as [<- <-].
    by destruct (dispatch_loaded _ _ _ rest _ s1) as [[[valid later] s2] l2].
  - destruct (IH valid_modules s1) as [<- <-].
    by destruct (dispatch_loaded _ _ _ rest _ s1) as [[[valid later] s2] l2].
Qed.



(** With at most one record of that name in the list, none is left; the
    other names may repeat. *)
Lemma erase_found_at_most_one module_name modules :
  length (filter (λ m, name m = module_name) modules) ≤ 1 →
  ∀ m, m ∈ erase_found module_name modules → name m ≠ module_name.
Proof.
  induction modules as [|m0 ms IH]; cbn [erase_found].
  { intros _ m Hin. by apply elem_of_nil in Hin. }
  destruct (decide (name m0 = module_name)) as [Heq|Hne].
  - rewrite filter_cons_True by done. cbn [length]. intros Hone m Hin Hname.
    assert (m ∈ filter (λ m, name m = module_name) ms) as Hfound.
    { by apply list_elem_of_filter. }
    destruct (filter (λ m, name m = module_name) ms) as [|x xs].
    + by apply elem_of_nil in Hfound.
    + cbn [length] in Hone. lia.
  - rewrite filter_cons_False by done. intros Hone m Hin.
    apply elem_of_cons in Hin as [->|Hin]; [done|]. by apply IH.
Qed.

(** X20.  A failed reload of a loaded module leaves the registry as it is
    and takes the module out of every cache entry that held at most one
    record of its name. *)
Lemma reload_script_error_clears module_name py_reload script e s :
  loaded_modules_ s !! module_name = Some script →
  py_reload (script_module script) = ReloadError e →
  let s' := state (reload_script module_name py_reload s) in
  loaded_modules_ s' = loaded_modules_ s ∧
  ∀ function_name modules,
    module_function_cache_ s !! function_name = Some modules →
    length (filter (λ m, name m = name script) modules) ≤ 1 →
    ∃ modules',
      module_function_cache_ s' !! function_name = Some modules' ∧
      ∀ m, m ∈ modules' → name m ≠ name script.
Proof.
  intros Hloaded Hreload s'. subst s'.
  rewrite (reload_script_error _ _ _ _ _ Hloaded Hreload).
  split; [done|]. intros function_name modules Hcached Hone.
  exists (erase_found (name script) modules).
  cbn [set_module_function_cache_ module_function_cache_].
  rewrite lookup_fmap, Hcached. split; [done|].
  by apply erase_found_at_most_one.
Qed.

End Plain.

(** ** How the two defects arise in general *)

Section Defects.
Context {FS : Filesystem}.

(** With functions that leave the manager alone, [valid_modules] receives
    the records whose function was called and returned; a record whose
    function raised is called but not collected. *)
Lemma dispatch_loaded_valid_modules event_key_name hasattr attr keys
    valid_modules s :
  (∀ module s, state (attr module s) = s) →
  (result (dispatch_loaded event_key_name hasattr attr keys valid_modules s)).1
  = valid_modules
    ++ filter (λ m, hasattr (script_module m)
                    && returns (result (attr (script_module m) s)))
         (omap (λ key, loaded_modules_ s !! key) keys) ∧
  state (dispatch_loaded event_key_name hasattr attr keys valid_modules s) = s.
Proof.
  intros Hplain. revert valid_modules.
  induction keys as [|key rest IH]; intros valid_modules;
    cbn [dispatch_loaded omap list_omap].
  { by rewrite filter_nil, app_nil_r. }
  host_simpl. destruct (loaded_modules_ s !! key) as [script|] eqn:Hkey;
    [|apply IH].
  cbv zeta. destruct (hasattr (script_module script)) eqn:Hm.
  2: { rewrite filter_cons_False by (rewrite Hm; exact id). apply IH. }
  host_simpl. rewrite Hplain.
  destruct (result (attr _ s)) as [|e] eqn:Houtcome; host_simpl.
  - rewrite filter_cons_True by (rewrite Hm, Houtcome; exact I).
    destruct (IH (valid_modules ++ [script])) as [IHvalid IHstate].
    destruct (dispatch_loaded _ _ _ rest _ s) as [[[valid later] s2] l2].
    cbn [result state fst snd] in *. by rewrite IHvalid, <- app_assoc.
  - rewrite filter_cons_False by (rewrite Hm, Houtcome; exact id).
    destruct (IH valid_modules) as [IHvalid IHstate].
    by destruct (dispatch_loaded _ _ _ rest _ s) as [[[valid later] s2] l2].
Qed.

(** [load_script] keeps every record of an entry and adds the new one, also
    when the entry already has a record of that module name. *)
Lemma load_script_keeps_cached module_path py_import module hasattr
    function_name modules s :
  py_import (absolute (parent_path module_path))
            (stem (relative (absolute module_path) current_path))
    = Imported module hasattr →
  module_function_cache_ s !! function_name = Some modules →
  hasattr function_name = true →
  ∃ script,
    name script = stem (relative (absolute module_path) current_path) ∧
    module_function_cache_ (state (load_script module_path py_import s))
      !! function_name = Some (modules ++ [script]).
Proof.
  intros Himport Hcached Hattr. rewrite load_script_state, Himport.
  eexists. split; [|cbv zeta;
    cbn [set_module_function_cache_ set_loaded_modules_ module_function_cache_];
    by rewrite lookup_add_to_cached_functions, Hcached, Hattr].
  done.
Qed.

End Defects.

(** * The manager at work on the concrete scene *)

Section Scene.
Import Example.
#[local] Existing Instance fs.

Lemma reachable_calls cs s : reachable s → reachable (state (calls cs s)).
Proof.
  revert s. induction cs as [|c rest IH]; intros s Hs; [done|].
  cbn [calls]. host_simpl. apply IH. by apply reachable_call.
Qed.

Example loaded_registry :
  map_to_list (loaded_modules_ loaded) = [("a", a); ("b", b)]
  ∧ module_function_cache_ loaded = ∅.
Proof. by vm_compute. Qed.

Example ticked_cache :
  map_to_list (module_function_cache_ ticked) = [("on_tick", [a; b])].
Proof. by vm_compute. Qed.

(** C1.  [a.on_tick] and [b.on_tick] both exist and [a.on_tick] raises
    during the first dispatch of [on_tick].  Both functions are called, the
    error is logged, and the cache entry made at the end holds [b] alone:
    the [push_back] into [valid_modules] comes after the call inside the
    [try] block and is skipped by the exception.  The next dispatch finds
    the entry and calls [b.on_tick] only. *)
Theorem raising_handler_is_not_cached :
  let first := dispatch_event "on_tick" has_on_tick
                 (λ module, run_script (a_raises module)) loaded in
  module_function_cache_ loaded !! "on_tick" = None ∧
  result first = [a; b] ∧
  logged first
  = ["ScriptManager::dispatch_event - Dispatching event: on_tick";
     "ScriptManager::dispatch_event - Script Error." +:+ nl +:+ "ValueError: boom";
     "Trace:" +:+ nl +:+ "  File a.py, line 2, in on_tick";
     "ScriptManager::dispatch_event - Dispatching event: on_tick";
     "ScriptManager::dispatch_event - Creating function cache for event: on_tick"] ∧
  module_function_cache_ (state first) !! "on_tick" = Some [b] ∧
  result (dispatch_event "on_tick" has_on_tick
            (λ module, run_script (ticks module)) (state first)) = [b].
Proof. by vm_compute. Qed.

(** C2.  [load_script] of [scripts/a.py], a dispatch of [on_tick], and
    [load_script] of the same file again: the registry has one record under
    ["a"], the cache entry of [on_tick] has two records of that name, and the
    next dispatch calls [a.on_tick] twice.  [load_script] does not take the
    old record out of the cache before it adds the new one, as
    [reload_script] does. *)
Theorem load_script_again_duplicates :
  loaded_modules_ loaded_twice !! "a" = Some a ∧
  module_function_cache_ loaded_twice !! "on_tick" = Some [a; a] ∧
  ¬ NoDup (name <$> [a; a]) ∧
  result (dispatch_event "on_tick" has_on_tick
            (λ module, run_script (ticks module)) loaded_twice) = [a; a].
Proof.
  split; [by vm_compute|]. split; [by vm_compute|]. split; [|by vm_compute].
  intros Hnodup. apply NoDup_cons in Hnodup as [Hnotin _].
  apply Hnotin. apply list_elem_of_here.
Qed.

(** C3.  After the calls of C2, [a.py] gets a syntax error and
    [reload_script("a")] fails.  The record is still in the registry, and
    the cache entry of [on_tick] still has a record named ["a"]:
    [std::find_if] with [erase] took out the first of the two. *)
Theorem failed_reload_leaves_a_cached :
  let s := state (reload_script "a" reload_fails loaded_twice) in
  loaded_modules_ s !! "a" = Some a ∧
  module_function_cache_ s !! "on_tick" = Some [a] ∧
  result (dispatch_event "on_tick" has_on_tick
            (λ module, run_script (ticks module)) s) = [a].
Proof. by vm_compute. Qed.

(** *** The theorems above at work *)

Lemma load_script_import_error_witness :
  py_import (absolute (parent_path "scripts/c.py"))
            (stem (relative (absolute "scripts/c.py") current_path))
    = ImportError SyntaxError
  ∧ load_script "scripts/c.py" py_import ticked
    = (tt, ticked,
       ["ScriptManager::load_script - Script Error." +:+ nl
        +:+ "SyntaxError: invalid syntax"]).
Proof.
  split; [reflexivity|].
  apply (load_script_import_error "scripts/c.py" py_import SyntaxError ticked).
  reflexivity.
Defined.

Lemma reload_script_appends_witness :
  loaded_modules_ ticked !! "a" = Some a
  ∧ reload_on_tick (script_module a) = Reloaded (λ f, String.eqb f "on_tick")
  ∧ module_function_cache_ (state (reload_script "a" reload_on_tick ticked)) !! "on_tick"
    = Some [b; a].
Proof.
  split; [by vm_compute|]. split; [reflexivity|].
  destruct (reload_script_appends "a" reload_on_tick a
              (λ f, String.eqb f "on_tick") ticked)
    as (_ & _ & Hentries); [by vm_compute|reflexivity|].
  destruct (Hentries "on_tick" [a; b]) as (modules' & -> & -> & _);
    [by vm_compute|].
  reflexivity.
Defined.

Example a_reloads_b_changes_cache :
  module_function_cache_
    (state (dispatch_event "on_tick" has_on_tick
              (λ module, run_script (a_reloads_b module)) ticked)) !! "on_tick"
  = Some [a].
Proof. by vm_compute. Qed.

Lemma dispatch_event_cached_copy_witness :
  module_function_cache_ ticked !! "on_tick" = Some [a; b]
  ∧ result (dispatch_event "on_tick" has_on_tick
              (λ module, run_script (a_reloads_b module)) ticked)
    = [a; b].
Proof.
  split; [by vm_compute|].
  rewrite (dispatch_event_cached_copy "on_tick" has_on_tick
             (λ module, run_script (a_reloads_b module)) [a; b] ticked);
    by vm_compute.
Defined.

Lemma dispatch_event_empty_entry_witness :
  module_function_cache_ emptied !! "on_tick" = Some []
  ∧ dispatch_event "on_tick" has_on_tick (λ module, run_script (ticks module)) emptied
    = ([], emptied, [])
  ∧ "on_tick" ∈ dom (module_function_cache_ ticked)
  ∧ "on_tick" ∈ dom (module_function_cache_
                       (state (call (DispatchEvent "on_tick" has_on_tick a_reloads_b)
                                 ticked))).
Proof.
  assert ("on_tick" ∈ dom (module_function_cache_ ticked)) as Hkey.
  { apply elem_of_dom. exists [a; b]. by vm_compute. }
  split; [by vm_compute|].
  split; [apply (proj1 (dispatch_event_empty_entry emptied) "on_tick");
          by vm_compute|].
  split; [done|].
  by apply (proj2 (dispatch_event_empty_entry ticked)).
Defined.

Lemma cache_is_subset_of_registry_witness :
  reachable ticked
  ∧ module_function_cache_ ticked !! "on_tick" = Some [a; b]
  ∧ b ∈ [a; b]
  ∧ is_Some (loaded_modules_ ticked !! name b).
Proof.
  assert (reachable ticked) as Hreachable.
  { apply reachable_call. apply reachable_calls. apply reachable_instance. }
  assert (b ∈ [a; b]) as Hin.
  { apply list_elem_of_further, list_elem_of_here. }
  split; [done|]. split; [by vm_compute|]. split; [done|].
  apply (cache_is_subset_of_registry ticked "on_tick" [a; b] b);
    [done|by vm_compute|done].
Defined.



Example a_raises_on_cached_dispatch :
  logged (dispatch_event "on_tick" has_on_tick
            (λ module, run_script (a_raises module)) ticked)
  = ["ScriptManager::dispatch_event - Dispatching cached event: on_tick";
     "ScriptManager::dispatch_event - Script Error." +:+ nl +:+ "ValueError: boom";
     "Trace:" +:+ nl +:+ "  File a.py, line 2, in on_tick";
     "ScriptManager::dispatch_event - Dispatching cached event: on_tick"].
Proof. by vm_compute. Qed.


End Scene.

(** * More of the manager *)

Section Loading.
Context {FS : Filesystem}.

(** X1.  [reload_script] of a name that is not in the registry logs that the
    script is not loaded and returns: the manager is unchanged and the
    interpreter is not asked to reload anything. *)
Theorem reload_script_not_loaded module_name s :
  loaded_modules_ s !! module_name = None →
  ∀ py_reload,
    reload_script module_name py_reload s
    = (tt, s, ["ScriptManager::reload_script - Error: Script not loaded."]).
Proof.
  intros Hmissing py_reload. unfold reload_script.
  unfold mbind, Host_bind, bind, get. by rewrite Hmissing.
Qed.

(** X2.  When the directory [load_scripts] resolves (the argument, or the
    module path when the argument is empty, under the working directory)
    does not exist or is not a directory, the call logs one line naming it
    and returns with the manager unchanged; nothing is imported. *)
Theorem load_scripts_directory_not_found p s :
  let module_path := if String.eqb p "" then join current_path (module_path_ s)
                     else join current_path p in
  exists_ module_path && is_directory module_path = false →
  ∀ py_import,
    load_scripts p py_import s
    = (tt, s, ["ScriptManager::load_scripts: directory not found - " +:+ module_path]).
Proof.
  intros module_path Hmissing py_import. unfold load_scripts.
  unfold mbind, Host_bind, bind, get. fold module_path.
  replace (negb (exists_ module_path) || negb (is_directory module_path))
    with true; [done|].
  by destruct (exists_ module_path), (is_directory module_path).
Qed.

(** X3.  The walk of [load_scripts] passes on the regular files with the
    extension [.py] and nothing else: entries of another kind or extension
    leave no trace in the registry, the cache or the log. *)
Theorem load_each_only_scripts modules py_import s :
  load_each modules py_import s
  = load_each (filter (λ module, is_script module) modules) py_import s.
Proof.
  revert s. induction modules as [|module rest IH]; intros s; [done|].
  unfold is_script in *. cbn [load_each].
  destruct (is_regular_file module) eqn:Hregular; cbn [negb andb].
  - destruct (String.eqb (extension (entry_path module)) ".py") eqn:Hpy;
      cbn [negb].
    + rewrite filter_cons_True by (rewrite Hregular, Hpy; exact I).
      cbn [load_each]. rewrite Hregular, Hpy. cbn [negb].
      unfold mbind, Host_bind, bind.
      destruct (load_script _ _ s) as [[[] s1] l1]. by rewrite IH.
    + rewrite filter_cons_False by (rewrite Hregular, Hpy; exact id).
      unfold mbind, mret, Host_bind, Host_ret, bind, ret. rewrite IH.
      by destruct (load_each _ _ s) as [[[] s1] l1].
  - rewrite filter_cons_False by (rewrite Hregular; exact id).
    unfold mbind, mret, Host_bind, Host_ret, bind, ret. rewrite IH.
    by destruct (load_each _ _ s) as [[[] s1] l1].
Qed.

(** X4.  After a [load_script] whose import succeeded, the registry holds
    the new record under the module name and every other key as before;
    each cache entry is the old list, with the new record at its end when
    the module has an attribute of the entry's name; the module path is
    unchanged and the log has the one line that names the module. *)
Theorem load_script_imported module_path py_import module hasattr s :
  py_import (absolute (parent_path module_path)) (module_name_of module_path)
    = Imported module hasattr →
  let script := {| name := module_name_of module_path;
                   script_module := module;
                   absolute_path := absolute module_path;
                   relative_path := relative (absolute module_path) current_path |} in
  let run := load_script module_path py_import s in
  loaded_modules_ (state run) !! module_name_of module_path = Some script ∧
  (∀ key, key ≠ module_name_of module_path →
          loaded_modules_ (state run) !! key = loaded_modules_ s !! key) ∧
  (∀ function_name,
     module_function_cache_ (state run) !! function_name
     = (λ modules, if hasattr function_name then modules ++ [script] else modules)
         <$> module_function_cache_ s !! function_name) ∧
  module_path_ (state run) = module_path_ s ∧
  logged run = ["ScriptManager::load_script - Script Module Loaded: "
                +:+ module_name_of module_path].
Proof.
  intros Himport script run. subst run script. unfold module_name_of in *.
  rewrite load_script_state, Himport. cbv zeta.
  cbn [set_module_function_cache_ set_loaded_modules_ loaded_modules_
       module_function_cache_ module_path_].
  split; [apply lookup_insert_eq|].
  split; [intros key Hkey; by apply lookup_insert_ne|].
  split; [intros function_name; apply lookup_add_to_cached_functions|].
  split; [done|].
  unfold load_script. rewrite Himport. by host_simpl.
Qed.

End Loading.

(** ** Reloading and loading, entry by entry *)

Lemma erase_found_names_NoDup module_name modules :
  NoDup (name <$> modules) → NoDup (name <$> erase_found module_name modules).
Proof.
  induction modules as [|m ms IH]; cbn [erase_found fmap list_fmap]; [done|].
  rewrite NoDup_cons. intros [Hnotin Hnodup].
  destruct (decide (name m = module_name)); [done|].
  rewrite fmap_cons. apply NoDup_cons. split; [|by apply IH].
  intros Hin. apply Hnotin.
  apply list_elem_of_fmap in Hin as (m' & -> & Hin).
  apply list_elem_of_fmap_2. by apply (erase_found_subseteq module_name).
Qed.

Lemma erase_found_absent module_name modules :
  (∀ m, m ∈ modules → name m ≠ module_name) →
  erase_found module_name modules = modules.
Proof.
  induction modules as [|m ms IH]; intros Habsent; cbn [erase_found]; [done|].
  destruct (decide (name m = module_name)) as [Heq|_].
  - destruct (Habsent m); [apply list_elem_of_here|done].
  - f_equal. apply IH. intros m' Hin. apply Habsent. by apply list_elem_of_further.
Qed.

Lemma erase_found_last module_name modules script :
  (∀ m, m ∈ modules → name m ≠ module_name) →
  name script = module_name →
  erase_found module_name (modules ++ [script]) = modules.
Proof.
  intros Habsent Hname.
  induction modules as [|m ms IH]; cbn [erase_found app].
  - by destruct (decide (name script = module_name)).
  - destruct (decide (name m = module_name)) as [Heq|_].
    + destruct (Habsent m); [apply list_elem_of_here|done].
    + f_equal. apply IH. intros m' Hin. apply Habsent.
      by apply list_elem_of_further.
Qed.

Lemma names_snoc_NoDup modules script :
  NoDup (name <$> modules) →
  (∀ m, m ∈ modules → name m ≠ name script) →
  NoDup (name <$> modules ++ [script]).
Proof.
  intros Hnodup Hfresh. rewrite fmap_app. apply NoDup_app.
  split; [done|]. split; [|apply NoDup_singleton].
  intros n Hin Hlast. apply list_elem_of_singleton in Hlast as ->.
  apply list_elem_of_fmap in Hin as (m & Heq & Hin). by apply (Hfresh m).
Qed.

Section Entries.
Context {FS : Filesystem}.

(** X5.  Whatever the outcome of the reload, [reload_script] of a loaded
    module leaves the registry, the module path and the set of cached event
    names as they are, and in every cache entry the records of the other
    modules stay, in their order. *)
Theorem reload_script_frame module_name py_reload script s :
  loaded_modules_ s !! module_name = Some script →
  let s' := state (reload_script module_name py_reload s) in
  loaded_modules_ s' = loaded_modules_ s ∧
  module_path_ s' = module_path_ s ∧
  dom (module_function_cache_ s') = dom (module_function_cache_ s) ∧
  ∀ function_name modules,
    module_function_cache_ s !! function_name = Some modules →
    ∃ modules',
      module_function_cache_ s' !! function_name = Some modules' ∧
      filter (λ m, name m ≠ name script) modules'
      = filter (λ m, name m ≠ name script) modules.
Proof.
  intros Hloaded s'. subst s'. rewrite reload_script_state, Hloaded.
  destruct (py_reload _) as [hasattr|e];
    cbn [set_module_function_cache_ loaded_modules_ module_function_cache_
         module_path_];
    (split; [done|]); (split; [done|]).
  - split; [rewrite dom_add_to_cached_functions; apply dom_fmap_L|].
    intros function_name modules Hcached. eexists. split.
    + by rewrite lookup_add_to_cached_functions, lookup_fmap, Hcached.
    + cbv beta. destruct (hasattr function_name); [|apply erase_found_others].
      rewrite filter_app, erase_found_others.
      rewrite (filter_cons_False _ script) by (intros Hn; by apply Hn).
      by rewrite filter_nil, app_nil_r.
  - split; [apply dom_fmap_L|].
    intros function_name modules Hcached. eexists. split.
    + by rewrite lookup_fmap, Hcached.
    + apply erase_found_others.
Qed.

(** X6.  [reload_script] keeps a cache entry free of repeated module names:
    an entry in which every name occurs at most once is such an entry
    afterwards, whether the module is missing, the reload fails or it
    succeeds. *)
Theorem reload_script_keeps_unique module_name py_reload function_name modules s :
  module_function_cache_ s !! function_name = Some modules →
  NoDup (name <$> modules) →
  ∃ modules',
    module_function_cache_ (state (reload_script module_name py_reload s))
      !! function_name = Some modules' ∧
    NoDup (name <$> modules').
Proof.
  intros Hcached Hnodup. rewrite reload_script_state.
  destruct (loaded_modules_ s !! module_name) as [script|]; [|by eexists].
  destruct (py_reload _) as [hasattr|e];
    cbn [set_module_function_cache_ module_function_cache_].
  - eexists. split.
    + by rewrite lookup_add_to_cached_functions, lookup_fmap, Hcached.
    + cbv beta. destruct (hasattr function_name);
        [|by apply erase_found_names_NoDup].
      apply names_snoc_NoDup; [by apply erase_found_names_NoDup|].
      by apply erase_found_unique.
  - eexists. split; [by rewrite lookup_fmap, Hcached|].
    by apply erase_found_names_NoDup.
Qed.

(** X7.  [load_script] of a module name the registry does not have yet keeps
    a cache entry free of repeated names, provided the cached records are
    all in the registry: the record it may add is the first of its name. *)
Theorem load_script_new_name_keeps_unique module_path py_import function_name
    modules s :
  loaded_modules_ s !! module_name_of module_path = None →
  cached_are_loaded s →
  module_function_cache_ s !! function_name = Some modules →
  NoDup (name <$> modules) →
  ∃ modules',
    module_function_cache_ (state (load_script module_path py_import s))
      !! function_name = Some modules' ∧
    NoDup (name <$> modules').
Proof.
  unfold module_name_of. intros Hnew Hloaded Hcached Hnodup.
  rewrite load_script_state.
  destruct (py_import _ _) as [module hasattr|e]; [|by eexists].
  cbv zeta.
  cbn [set_module_function_cache_ set_loaded_modules_ module_function_cache_].
  eexists. split; [by rewrite lookup_add_to_cached_functions, Hcached|].
  cbv beta. destruct (hasattr function_name); [|done].
  apply names_snoc_NoDup; [done|]. cbn [name].
  intros m Hin Hname. destruct (Hloaded _ _ _ Hcached Hin) as [x Hx].
  rewrite Hname, Hnew in Hx. done.
Qed.

(** X8.  [reload_script] right after the [load_script] of a module whose
    name no cached record had, with the module's attributes unchanged,
    leaves the manager exactly as the load left it: each entry loses the new
    record and gets it back at the end. *)
Theorem reload_after_load_is_stable module_path py_import py_reload module
    hasattr hasattr' s :
  py_import (absolute (parent_path module_path)) (module_name_of module_path)
    = Imported module hasattr →
  py_reload module = Reloaded hasattr' →
  (∀ function_name, hasattr' function_name = hasattr function_name) →
  (∀ function_name modules m,
     module_function_cache_ s !! function_name = Some modules →
     m ∈ modules → name m ≠ module_name_of module_path) →
  let s1 := state (load_script module_path py_import s) in
  state (reload_script (module_name_of module_path) py_reload s1) = s1.
Proof.
  intros Himport Hreload Hsame Hfresh s1. subst s1. unfold module_name_of in *.
  rewrite reload_script_state, load_script_state, Himport. cbv zeta.
  set (module_name := stem _) in *.
  match goal with |- context [add_to_cached_functions ?x] => set (script := x) end.
  cbn [set_module_function_cache_ set_loaded_modules_ loaded_modules_
       module_function_cache_ module_path_].
  rewrite lookup_insert_eq. cbn [script script_module name]. rewrite Hreload.
  unfold set_module_function_cache_, set_loaded_modules_.
  cbn [loaded_modules_ module_function_cache_ module_path_]. f_equal.
  apply map_eq. intros function_name.
  rewrite !lookup_add_to_cached_functions, lookup_fmap,
    lookup_add_to_cached_functions, Hsame.
  destruct (module_function_cache_ s !! function_name) as [modules|] eqn:Hcached;
    [|done].
  cbn [fmap option_fmap option_map]. f_equal.
  destruct (hasattr function_name).
  - f_equal. apply erase_found_last; [|done].
    intros m Hin. by apply (Hfresh function_name modules).
  - apply erase_found_absent.
    intros m Hin. by apply (Hfresh function_name modules).
Qed.

End Entries.

(** ** What host calls keep, continued *)

#[local] Instance keeps_modules_preorder : PreOrder keeps_modules.
Proof.
  split.
  - intros s. by unfold keeps_modules.
  - intros s1 s2 s3. unfold keeps_modules. intros H12 H23. by etrans.
Qed.

Section Walk.
Context {FS : Filesystem}.

Lemma load_script_keeps_modules module_path py_import s :
  keeps_modules s (state (load_script module_path py_import s)).
Proof.
  rewrite load_script_state. unfold keeps_modules.
  destruct (py_import _ _); [|done]. cbv zeta.
  cbn [set_module_function_cache_ set_loaded_modules_ loaded_modules_].
  rewrite dom_insert_L. set_solver.
Qed.

Lemma reload_script_keeps_modules module_name py_reload s :
  keeps_modules s (state (reload_script module_name py_reload s)).
Proof.
  rewrite reload_script_state. unfold keeps_modules.
  destruct (loaded_modules_ s !! module_name); [|done].
  by destruct (py_reload _).
Qed.

(** X9.  No host call takes a module out of the registry: after
    set_module_path, load_script, load_scripts, reload_script or
    dispatch_event, with whatever host calls the scripts make during the
    dispatch, every name the registry had is still there. *)
Theorem call_keeps_modules c s key :
  key ∈ dom (loaded_modules_ s) →
  key ∈ dom (loaded_modules_ (state (call c s))).
Proof.
  intros Hkey. revert key Hkey. change (keeps_modules s (state (call c s))).
  apply (call_across keeps_modules).
  - intros p s0. by unfold keeps_modules.
  - apply load_script_keeps_modules.
  - apply reload_script_keeps_modules.
  - intros event_key_name valid_modules s0 s1 Hrun _. exact Hrun.
Qed.

Lemma load_each_cache_keys modules py_import s :
  dom (module_function_cache_ (state (load_each modules py_import s)))
  = dom (module_function_cache_ s).
Proof.
  revert s. induction modules as [|module rest IH]; intros s; [done|].
  cbn [load_each]. host_simpl. rewrite IH.
  destruct (negb (is_regular_file module)); [done|].
  destruct (negb _); [done|].
  rewrite load_script_state. destruct (py_import _ _); [|done]. cbv zeta.
  cbn [set_module_function_cache_ set_loaded_modules_ module_function_cache_].
  apply dom_add_to_cached_functions.
Qed.

(** X10.  Only [dispatch_event] makes a cache entry: set_module_path,
    load_script, load_scripts and reload_script leave the set of cached
    event names exactly as it is.  A module loaded before the first dispatch
    of an event is therefore in no cache entry for it. *)
Theorem loading_resolves_no_event c s :
  (∀ event_key_name hasattr attr, c ≠ DispatchEvent event_key_name hasattr attr) →
  dom (module_function_cache_ (state (call c s)))
  = dom (module_function_cache_ s).
Proof.
  intros Hc. destruct c as [p|module_path py_import|p py_import
                            |module_name py_reload|event_key_name hasattr attr];
    cbn [call].
  - done.
  - rewrite load_script_state. destruct (py_import _ _); [|done]. cbv zeta.
    cbn [set_module_function_cache_ set_loaded_modules_ module_function_cache_].
    apply dom_add_to_cached_functions.
  - unfold load_scripts. host_simpl. destruct (_ || _); [done|].
    apply load_each_cache_keys.
  - rewrite reload_script_state.
    destruct (loaded_modules_ s !! module_name); [|done].
    destruct (py_reload _);
      cbn [set_module_function_cache_ module_function_cache_];
      by rewrite ?dom_add_to_cached_functions, dom_fmap_L.
  - by destruct (Hc event_key_name hasattr attr).
Qed.

(** X11.  In every state the manager can reach, the registry files each
    record under the record's own name. *)
Theorem reachable_keyed_by_name s key script :
  reachable s →
  loaded_modules_ s !! key = Some script →
  name script = key.
Proof.
  intros Hs. destruct (reachable_consistent s Hs) as [Hkeyed _]. apply Hkeyed.
Qed.

Lemma load_each_loads modules py_import s module loaded_module hasattr :
  module ∈ modules →
  is_script module = true →
  py_import (absolute (parent_path (entry_path module)))
            (module_name_of (entry_path module))
    = Imported loaded_module hasattr →
  module_name_of (entry_path module)
  ∈ dom (loaded_modules_ (state (load_each modules py_import s))).
Proof.
  unfold is_script, module_name_of. intros Hin Hscript Himport. revert s.
  induction modules as [|module0 rest IH]; intros s;
    [by apply elem_of_nil in Hin|].
  cbn [load_each]. host_simpl.
  apply elem_of_cons in Hin as [<-|Hin]; [|by apply IH].
  apply andb_true_iff in Hscript as [-> ->]. cbn [negb].
  apply (load_each_across keeps_modules load_script_keeps_modules).
  rewrite load_script_state, Himport. cbv zeta.
  cbn [set_module_function_cache_ set_loaded_modules_ loaded_modules_].
  rewrite dom_insert_L. set_solver.
Qed.

(** X12.  After [load_scripts] on an existing directory, every regular
    [.py] file of the walk whose import succeeded has its module name in the
    registry, whatever happened to the other files: a script that fails to
    import does not stop the walk. *)
Theorem load_scripts_loads_every_importable p py_import s module loaded_module
    hasattr :
  let module_path := if String.eqb p "" then join current_path (module_path_ s)
                     else join current_path p in
  exists_ module_path = true →
  is_directory module_path = true →
  module ∈ recursive_directory_iterator module_path →
  is_script module = true →
  py_import (absolute (parent_path (entry_path module)))
            (module_name_of (entry_path module))
    = Imported loaded_module hasattr →
  is_Some (loaded_modules_ (state (load_scripts p py_import s))
             !! module_name_of (entry_path module)).
Proof.
  intros module_path Hexists Hdirectory Hin Hscript Himport.
  apply elem_of_dom. unfold load_scripts. host_simpl. fold module_path.
  rewrite Hexists, Hdirectory. cbn [negb orb].
  by eapply load_each_loads.
Qed.

Lemma load_script_with_module_path module_path py_import p s :
  load_script module_path py_import (with_module_path p s)
  = (tt, with_module_path p (state (load_script module_path py_import s)),
     logged (load_script module_path py_import s)).
Proof.
  unfold load_script. destruct (py_import _ _) as [module hasattr|e].
  - done.
  - unfold log_exception, mbind, Host_bind, bind, log_message.
    by destruct (traceback e).
Qed.

Lemma load_each_with_module_path modules py_import p s :
  load_each modules py_import (with_module_path p s)
  = (tt, with_module_path p (state (load_each modules py_import s)),
     logged (load_each modules py_import s)).
Proof.
  revert s. induction modules as [|module rest IH]; intros s; [done|].
  cbn [load_each].
  destruct (negb (is_regular_file module)) eqn:Hregular.
  { unfold mbind, mret, Host_bind, Host_ret, bind, ret. rewrite IH.
    by destruct (load_each rest py_import s) as [[[] s1] l1]. }
  destruct (negb (String.eqb _ _)) eqn:Hpy.
  { unfold mbind, mret, Host_bind, Host_ret, bind, ret. rewrite IH.
    by destruct (load_each rest py_import s) as [[[] s1] l1]. }
  unfold mbind, Host_bind, bind. rewrite load_script_with_module_path.
  destruct (load_script _ _ s) as [[[] s1] l1]. cbn [state logged fst snd].
  rewrite IH. by destruct (load_each rest py_import s1) as [[[] s2] l2].
Qed.

(** X13.  [set_module_path] with a non-empty path followed by
    [load_scripts] without argument loads what [load_scripts] with that path
    as argument loads: the same registry, the same cache and the same log
    lines; the states differ in the stored module path only. *)
Theorem load_scripts_default_is_module_path p py_import s :
  p ≠ "" →
  load_scripts "" py_import (state (set_module_path p s))
  = (tt, with_module_path p (state (load_scripts p py_import s)),
     logged (load_scripts p py_import s)).
Proof.
  intros Hp. apply String.eqb_neq in Hp.
  unfold load_scripts, mbind, Host_bind, bind, get.
  cbn [set_module_path modify state fst snd module_path_ String.eqb]. rewrite Hp.
  change {| module_path_ := p; loaded_modules_ := loaded_modules_ s;
            module_function_cache_ := module_function_cache_ s |}
    with (with_module_path p s).
  destruct (_ || _); [done|].
  rewrite load_each_with_module_path.
  by destruct (load_each _ py_import s) as [[[] s1] l1].
Qed.

End Walk.

(** ** Dispatching to functions that leave the manager alone *)

Section Dispatching.
Context {FS : Filesystem}.

Lemma dispatch_cached_plain event_key_name hasattr attr modules s :
  (∀ module s, state (attr module s) = s) →
  state (dispatch_cached event_key_name hasattr attr modules s) = s.
Proof.
  intros Hplain. symmetry.
  apply (dispatch_cached_across eq). intros module s0. by rewrite Hplain.
Qed.

Lemma dispatch_event_plain event_key_name hasattr attr s :
  (∀ module s, state (attr module s) = s) →
  let valid_modules :=
    filter (λ m, hasattr (script_module m)
                 && returns (result (attr (script_module m) s)))
      (map_to_list (loaded_modules_ s)).*2 in
  result (dispatch_event event_key_name hasattr attr s)
  = filter (λ m, hasattr (script_module m))
      match module_function_cache_ s !! event_key_name with
      | Some modules => modules
      | None => (map_to_list (loaded_modules_ s)).*2
      end ∧
  state (dispatch_event event_key_name hasattr attr s)
  = match module_function_cache_ s !! event_key_name, valid_modules with
    | None, _ :: _ =>
        set_module_function_cache_ (<[event_key_name := valid_modules]>) s
    | _, _ => s
    end.
Proof.
  intros Hplain valid_modules.
  destruct (module_function_cache_ s !! event_key_name) as [modules|] eqn:Hcached.
  - unfold dispatch_event. host_simpl. rewrite Hcached.
    split; [apply dispatch_cached_result|by apply dispatch_cached_plain].
  - rewrite (dispatch_event_uncached _ _ _ _ Hcached).
    destruct (dispatch_uncached_run event_key_name hasattr attr s) as [-> ->].
    destruct (dispatch_loaded_valid_modules event_key_name hasattr attr
                (map_to_list (loaded_modules_ s)).*1 [] s Hplain) as [-> ->].
    rewrite map_to_list_values, app_nil_l. fold valid_modules. split; [|done].
    rewrite <- map_to_list_values.
    apply dispatch_loaded_calls_every_match. intros module s0. by rewrite Hplain.
Qed.

(** X14.  A [dispatch_event] whose called functions leave the manager alone
    changes at most the cache entry of the dispatched event: the registry,
    the module path and every other cache entry are as before, and when the
    event was already in the cache nothing changes at all. *)
Theorem dispatch_event_frame event_key_name hasattr attr s :
  (∀ module s, state (attr module s) = s) →
  let s' := state (dispatch_event event_key_name hasattr attr s) in
  loaded_modules_ s' = loaded_modules_ s ∧
  module_path_ s' = module_path_ s ∧
  (∀ other, other ≠ event_key_name →
            module_function_cache_ s' !! other = module_function_cache_ s !! other) ∧
  (is_Some (module_function_cache_ s !! event_key_name) → s' = s).
Proof.
  intros Hplain s'. subst s'.
  destruct (dispatch_event_plain event_key_name hasattr attr s Hplain) as [_ ->].
  destruct (module_function_cache_ s !! event_key_name) as [modules|];
    [by repeat split|].
  destruct (filter _ _) as [|script valid]; [by repeat split; try intros [? ?]|].
  cbn [set_module_function_cache_ loaded_modules_ module_path_
       module_function_cache_].
  split; [done|]. split; [done|]. split; [|by intros [? ?]].
  intros other Hother. by apply lookup_insert_ne.
Qed.

Lemma dispatch_loaded_no_match event_key_name hasattr attr keys valid_modules s :
  (∀ key script, loaded_modules_ s !! key = Some script →
                 hasattr (script_module script) = false) →
  dispatch_loaded event_key_name hasattr attr keys valid_modules s
  = ((valid_modules, []), s, []).
Proof.
  intros Hnone. induction keys as [|key rest IH]; [done|].
  cbn [dispatch_loaded]. unfold mbind at 1, Host_bind at 1, bind at 1, get.
  destruct (loaded_modules_ s !! key) as [script|] eqn:Hkey; [|by rewrite IH].
  cbv zeta. rewrite (Hnone _ _ Hkey). by rewrite IH.
Qed.

(** X15.  When the event is not in the cache and no loaded module has the
    attribute, [dispatch_event] calls nothing, logs nothing and leaves the
    manager unchanged; in particular it makes no cache entry, so the next
    dispatch of the event walks the registry again. *)
Theorem dispatch_event_no_subscriber event_key_name hasattr s :
  module_function_cache_ s !! event_key_name = None →
  (∀ key script, loaded_modules_ s !! key = Some script →
                 hasattr (script_module script) = false) →
  ∀ attr, dispatch_event event_key_name hasattr attr s = ([], s, []).
Proof.
  intros Hmiss Hnone attr. rewrite (dispatch_event_uncached _ _ _ _ Hmiss).
  unfold dispatch_uncached, mbind, Host_bind, bind, get.
  by rewrite (dispatch_loaded_no_match _ _ _ _ _ _ Hnone).
Qed.


(** X17.  When the event is not in the cache and the called functions leave
    the manager alone, the cache entry [dispatch_event] makes holds the
    loaded records whose module has the attribute and whose function
    returned, in the iteration order of the registry; there is no entry
    afterwards when no function returned. *)
Theorem dispatch_event_caches_returned event_key_name hasattr attr s :
  module_function_cache_ s !! event_key_name = None →
  (∀ module s, state (attr module s) = s) →
  let valid_modules :=
    filter (λ m, hasattr (script_module m)
                 && returns (result (attr (script_module m) s)))
      (map_to_list (loaded_modules_ s)).*2 in
  module_function_cache_ (state (dispatch_event event_key_name hasattr attr s))
    !! event_key_name
  = match valid_modules with
    | [] => None
    | _ :: _ => Some valid_modules
    end.
Proof.
  intros Hmiss Hplain valid_modules.
  destruct (dispatch_event_plain event_key_name hasattr attr s Hplain) as [_ ->].
  rewrite Hmiss. fold valid_modules. destruct valid_modules; [done|].
  cbn [set_module_function_cache_ module_function_cache_].
  apply lookup_insert_eq.
Qed.

(** X18.  Two dispatches of one event in a row call the same records in the
    same order, when the functions leave the manager alone and all return:
    the first can be the one that makes the cache entry. *)
Theorem dispatch_event_twice_same_calls event_key_name hasattr attr s :
  (∀ module s, state (attr module s) = s) →
  (∀ module s, result (attr module s) = Returned) →
  let first := dispatch_event event_key_name hasattr attr s in
  result (dispatch_event event_key_name hasattr attr (state first))
  = result first.
Proof.
  intros Hplain Hreturns first. subst first.
  destruct (dispatch_event_plain event_key_name hasattr attr s Hplain)
    as [Hcalled Hstate].
  cbv zeta in Hstate. rewrite Hstate, Hcalled.
  destruct (module_function_cache_ s !! event_key_name) as [modules|] eqn:Hcached.
  { exact Hcalled. }
  assert (filter (λ m, hasattr (script_module m)
                       && returns (result (attr (script_module m) s)))
            (map_to_list (loaded_modules_ s)).*2
          = filter (λ m, hasattr (script_module m))
              (map_to_list (loaded_modules_ s)).*2) as ->.
  { apply list_filter_iff. intros m. rewrite Hreturns.
    by rewrite andb_true_r. }
  destruct (filter _ _) as [|script valid] eqn:Hvalid.
  { by rewrite Hcalled. }
  destruct (dispatch_event_plain event_key_name hasattr attr
              (set_module_function_cache_
                 (<[event_key_name := script :: valid]>) s) Hplain) as [-> _].
  cbn [set_module_function_cache_ module_function_cache_ loaded_modules_].
  rewrite lookup_insert_eq, <- Hvalid, list_filter_filter.
  apply list_filter_iff. tauto.
Qed.

(** X19.  In a state whose registry files every record under its own name,
    the cache entry made by a dispatch has no module name twice (the called
    functions leaving the manager alone). *)
Theorem dispatch_event_caches_unique event_key_name hasattr attr s modules :
  module_function_cache_ s !! event_key_name = None →
  keyed_by_name s →
  (∀ module s, state (attr module s) = s) →
  module_function_cache_ (state (dispatch_event event_key_name hasattr attr s))
    !! event_key_name = Some modules →
  NoDup (name <$> modules).
Proof.
  intros Hmiss Hkeyed Hplain.
  destruct (dispatch_event_plain event_key_name hasattr attr s Hplain) as [_ ->].
  rewrite Hmiss.
  assert (NoDup (name <$> (map_to_list (loaded_modules_ s)).*2)) as Hvalues.
  { assert ((name <$> (map_to_list (loaded_modules_ s)).*2)
            = (map_to_list (loaded_modules_ s)).*1) as ->;
      [|apply NoDup_fst_map_to_list].
    assert (∀ l : list (string * ScriptModule),
              Forall (λ kv, name kv.2 = kv.1) l → name <$> l.*2 = l.*1) as Hall.
    { induction l as [|[key script] l IH]; [done|].
      rewrite Forall_cons. intros [Hkey Hl]. rewrite !fmap_cons.
      cbn [fst snd] in *. rewrite Hkey. f_equal. by apply IH. }
    apply Hall, Forall_forall. intros [key script] Hin.
    apply elem_of_map_to_list in Hin. by apply Hkeyed. }
  destruct (filter _ _) as [|script valid] eqn:Hvalid.
  { rewrite Hmiss. done. }
  cbn [set_module_function_cache_ module_function_cache_].
  rewrite lookup_insert_eq. intros [= <-]. rewrite <- Hvalid.
  eapply sublist_NoDup; [exact Hvalues|].
  apply fmap_sublist, sublist_filter.
Qed.

End Dispatching.

(** * More of the manager at work on the concrete scene *)

Section Scene_continued.
Import Example.
#[local] Existing Instance fs.

Lemma reload_script_error_clears_witness :
  loaded_modules_ b_twice !! "a" = Some a
  ∧ reload_fails (script_module a) = ReloadError SyntaxError
  ∧ module_function_cache_ b_twice !! "on_tick" = Some [a; b; b]
  ∧ length (filter (λ m, name m = name a) [a; b; b]) ≤ 1
  ∧ module_function_cache_ (state (reload_script "a" reload_fails b_twice)) !! "on_tick"
    = Some [b; b].
Proof.
  assert (length (filter (λ m, name m = name a) [a; b; b]) ≤ 1) as Hone.
  { by vm_compute. }
  split; [by vm_compute|]. split; [reflexivity|]. split; [by vm_compute|].
  split; [done|].
  destruct (reload_script_error_clears "a" reload_fails a SyntaxError b_twice)
    as [_ Hentries]; [by vm_compute|reflexivity|].
  destruct (Hentries "on_tick" [a; b; b]) as (modules' & _ & _);
    [by vm_compute|done|].
  by vm_compute.
Defined.

Lemma reload_script_not_loaded_witness :
  loaded_modules_ loaded !! "c" = None
  ∧ reload_script "c" reload_on_tick loaded
    = (tt, loaded, ["ScriptManager::reload_script - Error: Script not loaded."]).
Proof.
  split; [by vm_compute|].
  apply (reload_script_not_loaded "c" loaded). by vm_compute.
Defined.

Lemma load_scripts_directory_not_found_witness :
  exists_ (join current_path "nowhere") && is_directory (join current_path "nowhere")
    = false
  ∧ load_scripts "nowhere" py_import loaded
    = (tt, loaded, ["ScriptManager::load_scripts: directory not found - /srv/nowhere"]).
Proof.
  split; [reflexivity|].
  exact (load_scripts_directory_not_found "nowhere" loaded eq_refl py_import).
Defined.

Lemma load_script_imported_witness :
  py_import (absolute (parent_path "scripts/a.py")) (module_name_of "scripts/a.py")
    = Imported 1 (λ f, String.eqb f "on_tick")
  ∧ loaded_modules_ (state (load_script "scripts/a.py" py_import instance)) !! "a"
    = Some a.
Proof.
  split; [reflexivity|].
  destruct (load_script_imported "scripts/a.py" py_import 1
              (λ f, String.eqb f "on_tick") instance) as (Hrecord & _);
    [reflexivity|].
  exact Hrecord.
Defined.

Lemma reload_script_frame_witness :
  loaded_modules_ ticked !! "a" = Some a
  ∧ loaded_modules_ (state (reload_script "a" reload_fails ticked))
    = loaded_modules_ ticked
  ∧ dom (module_function_cache_ (state (reload_script "a" reload_fails ticked)))
    = dom (module_function_cache_ ticked).
Proof.
  split; [by vm_compute|].
  destruct (reload_script_frame "a" reload_fails a ticked)
    as (Hregistry & _ & Hkeys & _); [by vm_compute|].
  by split.
Defined.

Lemma reload_script_keeps_unique_witness :
  module_function_cache_ ticked !! "on_tick" = Some [a; b]
  ∧ NoDup (name <$> [a; b])
  ∧ ∃ modules',
      module_function_cache_ (state (reload_script "a" reload_on_tick ticked))
        !! "on_tick" = Some modules'
      ∧ NoDup (name <$> modules').
Proof.
  assert (NoDup (name <$> [a; b])) as Hnodup.
  { apply (bool_decide_unpack _). by vm_compute. }
  split; [by vm_compute|]. split; [done|].
  apply (reload_script_keeps_unique "a" reload_on_tick "on_tick" [a; b] ticked);
    [by vm_compute|done].
Defined.

Lemma a_ticked_reachable : reachable a_ticked.
Proof. apply reachable_calls, reachable_instance. Qed.

Lemma a_ticked_cache :
  module_function_cache_ a_ticked = {["on_tick" := [a]]}.
Proof. by vm_compute. Qed.

Lemma load_script_new_name_keeps_unique_witness :
  loaded_modules_ a_ticked !! module_name_of "scripts/sub/b.py" = None
  ∧ cached_are_loaded a_ticked
  ∧ module_function_cache_ a_ticked !! "on_tick" = Some [a]
  ∧ NoDup (name <$> [a])
  ∧ ∃ modules',
      module_function_cache_
        (state (load_script "scripts/sub/b.py" py_import a_ticked)) !! "on_tick"
      = Some modules'
      ∧ NoDup (name <$> modules').
Proof.
  assert (NoDup (name <$> [a])) as Hnodup by apply NoDup_singleton.
  assert (cached_are_loaded a_ticked) as Hloaded.
  { apply (reachable_consistent a_ticked a_ticked_reachable). }
  split; [by vm_compute|]. split; [done|]. split; [by vm_compute|].
  split; [done|].
  apply (load_script_new_name_keeps_unique "scripts/sub/b.py" py_import
           "on_tick" [a] a_ticked); [by vm_compute|done|by vm_compute|done].
Defined.

Lemma reload_after_load_is_stable_witness :
  py_import (absolute (parent_path "scripts/sub/b.py"))
            (module_name_of "scripts/sub/b.py")
    = Imported 2 (λ f, String.eqb f "on_tick")
  ∧ reload_on_tick 2 = Reloaded (λ f, String.eqb f "on_tick")
  ∧ state (reload_script "b" reload_on_tick
             (state (load_script "scripts/sub/b.py" py_import a_ticked)))
    = state (load_script "scripts/sub/b.py" py_import a_ticked).
Proof.
  split; [reflexivity|]. split; [reflexivity|].
  change (state (reload_script (module_name_of "scripts/sub/b.py") reload_on_tick
                   (state (load_script "scripts/sub/b.py" py_import a_ticked)))
          = state (load_script "scripts/sub/b.py" py_import a_ticked)).
  apply (reload_after_load_is_stable "scripts/sub/b.py" py_import reload_on_tick 2
           (λ f, String.eqb f "on_tick") (λ f, String.eqb f "on_tick") a_ticked);
    [reflexivity|reflexivity|done|].
  intros function_name modules m Hcached Hin. rewrite a_ticked_cache in Hcached.
  apply lookup_singleton_Some in Hcached as [_ <-].
  apply list_elem_of_singleton in Hin as ->. by vm_compute.
Defined.

Lemma call_keeps_modules_witness :
  "a" ∈ dom (loaded_modules_ loaded)
  ∧ "a" ∈ dom (loaded_modules_
                 (state (call (ReloadScript "a" reload_fails) loaded))).
Proof.
  assert ("a" ∈ dom (loaded_modules_ loaded)) as Hin.
  { apply elem_of_dom. exists a. by vm_compute. }
  split; [done|].
  by apply (call_keeps_modules (ReloadScript "a" reload_fails) loaded "a").
Defined.

Lemma loading_resolves_no_event_witness :
  (∀ event_key_name hasattr attr,
     LoadScript "scripts/a.py" py_import ≠ DispatchEvent event_key_name hasattr attr)
  ∧ dom (module_function_cache_
           (state (call (LoadScript "scripts/a.py" py_import) ticked)))
    = dom (module_function_cache_ ticked).
Proof.
  assert (∀ event_key_name hasattr attr,
            LoadScript "scripts/a.py" py_import
            ≠ DispatchEvent event_key_name hasattr attr) as Hload by done.
  split; [done|].
  by apply (loading_resolves_no_event (LoadScript "scripts/a.py" py_import) ticked).
Defined.

Lemma ticked_reachable : reachable ticked.
Proof. apply reachable_call, reachable_calls, reachable_instance. Qed.

Lemma reachable_keyed_by_name_witness :
  reachable ticked
  ∧ loaded_modules_ ticked !! "b" = Some b
  ∧ name b = "b".
Proof.
  split; [apply ticked_reachable|]. split; [by vm_compute|].
  apply (reachable_keyed_by_name ticked "b" b);
    [apply ticked_reachable|by vm_compute].
Defined.

Lemma load_scripts_loads_every_importable_witness :
  exists_ (join current_path "scripts") = true
  ∧ is_directory (join current_path "scripts") = true
  ∧ {| entry_path := "/srv/scripts/sub/b.py"; is_regular_file := true |}
      ∈ recursive_directory_iterator (join current_path "scripts")
  ∧ is_script {| entry_path := "/srv/scripts/sub/b.py"; is_regular_file := true |}
    = true
  ∧ py_import (absolute (parent_path "/srv/scripts/sub/b.py"))
              (module_name_of "/srv/scripts/sub/b.py")
    = Imported 2 (λ f, String.eqb f "on_tick")
  ∧ is_Some (loaded_modules_ (state (load_scripts "scripts" py_import instance))
               !! "b").
Proof.
  assert ({| entry_path := "/srv/scripts/sub/b.py"; is_regular_file := true |}
            ∈ recursive_directory_iterator (join current_path "scripts")) as Hin.
  { do 2 apply list_elem_of_further. apply list_elem_of_here. }
  split; [reflexivity|]. split; [reflexivity|]. split; [done|].
  split; [reflexivity|]. split; [reflexivity|].
  exact (load_scripts_loads_every_importable "scripts" py_import instance
           {| entry_path := "/srv/scripts/sub/b.py"; is_regular_file := true |}
           2 (λ f, String.eqb f "on_tick") eq_refl eq_refl Hin eq_refl eq_refl).
Defined.

Lemma load_scripts_default_is_module_path_witness :
  "scripts" ≠ ""
  ∧ load_scripts "" py_import (state (set_module_path "scripts" instance))
    = (tt, with_module_path "scripts"
             (state (load_scripts "scripts" py_import instance)),
       logged (load_scripts "scripts" py_import instance)).
Proof.
  assert ("scripts" ≠ "") as Hpath by done.
  split; [done|].
  by apply (load_scripts_default_is_module_path "scripts" py_import instance).
Defined.

Lemma ticks_leave_alone module s : state (run_script (ticks module) s) = s.
Proof. done. Qed.

Lemma a_raises_leaves_alone module s : state (run_script (a_raises module) s) = s.
Proof. unfold a_raises. by destruct (module =? 1). Qed.

Lemma dispatch_event_frame_witness :
  (∀ module s, state (run_script (a_raises module) s) = s)
  ∧ loaded_modules_
      (state (dispatch_event "on_tick" has_on_tick
                (λ module, run_script (a_raises module)) loaded))
    = loaded_modules_ loaded.
Proof.
  split; [apply a_raises_leaves_alone|].
  destruct (dispatch_event_frame "on_tick" has_on_tick
              (λ module, run_script (a_raises module)) loaded) as (Hregistry & _);
    [apply a_raises_leaves_alone|].
  exact Hregistry.
Defined.

Lemma dispatch_event_no_subscriber_witness :
  module_function_cache_ loaded !! "on_join" = None
  ∧ (∀ key script, loaded_modules_ loaded !! key = Some script →
                   (λ _ : py_module, false) (script_module script) = false)
  ∧ dispatch_event "on_join" (λ _, false)
      (λ module, run_script (ticks module)) loaded
    = ([], loaded, []).
Proof.
  split; [by vm_compute|]. split; [done|].
  by apply (dispatch_event_no_subscriber "on_join" (λ _, false) loaded).
Defined.


Lemma dispatch_event_caches_returned_witness :
  module_function_cache_ loaded !! "on_tick" = None
  ∧ (∀ module s, state (run_script (a_raises module) s) = s)
  ∧ module_function_cache_
      (state (dispatch_event "on_tick" has_on_tick
                (λ module, run_script (a_raises module)) loaded)) !! "on_tick"
    = Some [b].
Proof.
  split; [by vm_compute|]. split; [apply a_raises_leaves_alone|].
  rewrite (dispatch_event_caches_returned "on_tick" has_on_tick
             (λ module, run_script (a_raises module)) loaded);
    [by vm_compute|by vm_compute|apply a_raises_leaves_alone].
Defined.

Lemma dispatch_event_twice_same_calls_witness :
  (∀ module s, state (run_script (ticks module) s) = s)
  ∧ (∀ module s, result (run_script (ticks module) s) = Returned)
  ∧ result (dispatch_event "on_tick" has_on_tick
              (λ module, run_script (ticks module))
              (state (dispatch_event "on_tick" has_on_tick
                        (λ module, run_script (ticks module)) loaded)))
    = result (dispatch_event "on_tick" has_on_tick
                (λ module, run_script (ticks module)) loaded).
Proof.
  split; [done|]. split; [done|].
  by apply (dispatch_event_twice_same_calls "on_tick" has_on_tick
              (λ module, run_script (ticks module)) loaded).
Defined.

Lemma loaded_reachable : reachable loaded.
Proof. apply reachable_calls, reachable_instance. Qed.

Lemma dispatch_event_caches_unique_witness :
  module_function_cache_ loaded !! "on_tick" = None
  ∧ keyed_by_name loaded
  ∧ (∀ module s, state (run_script (ticks module) s) = s)
  ∧ module_function_cache_
      (state (dispatch_event "on_tick" has_on_tick
                (λ module, run_script (ticks module)) loaded)) !! "on_tick"
    = Some [a; b]
  ∧ NoDup (name <$> [a; b]).
Proof.
  assert (keyed_by_name loaded) as Hkeyed.
  { apply (reachable_consistent loaded loaded_reachable). }
  split; [by vm_compute|]. split; [done|]. split; [done|].
  split; [by vm_compute|].
  apply (dispatch_event_caches_unique "on_tick" has_on_tick
           (λ module, run_script (ticks module)) loaded [a; b]);
    [by vm_compute|done|done|by vm_compute].
Defined.

End Scene_continued.
